(** * Call-graph generator for bracketed message sends

    A shallow embedding of [tools/callgraph/call_graph_generator.py]:
    the [MethodCall] record with its signature rendering, the
    [CallGraphGenerator] state with [parse_interface],
    [parse_implementation], [analyze_file] and [print_call_graph], and
    the part of Python's [re] and [str] that these functions use.

    Text is modelled as [string] over 8-bit characters read as the code
    points 0 to 255; code points above 255 are outside the model. *)

From Stdlib Require Import Ascii String NArith Sorted.
From stdpp Require Import gmap strings list fin_maps sorting pretty.

(** ** Characters: the predicates of [str] and of [re] on code points *)

Module PyChar.

Definition code (c : ascii) : N := N_of_ascii c.

Definition in_range (lo hi : N) (c : ascii) : bool :=
  ((lo <=? code c) && (code c <=? hi))%N.

(** [str.isspace] on one character; also the class [\s] of a str pattern. *)
Definition isspace (c : ascii) : bool :=
  in_range 9 13 c || in_range 28 32 c || in_range 133 133 c
  || in_range 160 160 c.

(** [str.isupper] on one character. *)
Definition isupper (c : ascii) : bool :=
  in_range 65 90 c || in_range 192 214 c || in_range 216 222 c.

(** [str.islower] on one character. *)
Definition islower (c : ascii) : bool :=
  in_range 97 122 c || in_range 170 170 c || in_range 181 181 c
  || in_range 186 186 c || in_range 223 246 c || in_range 248 255 c.

(** ASCII digits, the superscript digits and the vulgar fractions. *)
Definition isnumeric (c : ascii) : bool :=
  in_range 48 57 c || in_range 178 179 c || in_range 185 185 c
  || in_range 188 190 c.

Definition isalpha (c : ascii) : bool := isupper c || islower c.

(** The class [\w] of a str pattern: alphanumeric or underscore. *)
Definition isword (c : ascii) : bool :=
  isalpha c || isnumeric c || in_range 95 95 c.

End PyChar.

(** ** Strings: the [str] methods used by the generator *)

Module PyStr.

Definition is_empty (s : string) : bool :=
  match s with EmptyString => true | String _ _ => false end.

(** [c in s] for a one-character [c]. *)
Fixpoint contains (c : ascii) (s : string) : bool :=
  match s with
  | EmptyString => false
  | String a s' => Ascii.eqb a c || contains c s'
  end.

Fixpoint lstrip (s : string) : string :=
  match s with
  | EmptyString => EmptyString
  | String a s' => if PyChar.isspace a then lstrip s' else s
  end.

Fixpoint rstrip (s : string) : string :=
  match s with
  | EmptyString => EmptyString
  | String a s' =>
      let r := rstrip s' in
      if is_empty r && PyChar.isspace a then EmptyString else String a r
  end.

(** [s.strip()] *)
Definition strip (s : string) : string := rstrip (lstrip s).

(** [s.split(sep)] for a one-character separator: never empty. *)
Fixpoint split (sep : ascii) (s : string) : list string :=
  match s with
  | EmptyString => [EmptyString]
  | String a s' =>
      if Ascii.eqb a sep then EmptyString :: split sep s'
      else match split sep s' with
           | h :: t => String a h :: t
           | [] => [String a EmptyString]
           end
  end.

(** [sep.join(parts)] *)
Fixpoint join (sep : string) (parts : list string) : string :=
  match parts with
  | [] => EmptyString
  | [p] => p
  | p :: ps => p +:+ sep +:+ join sep ps
  end.

(** [s.startswith(p)] *)
Definition startswith (s p : string) : bool := String.prefix p s.

(** [s.replace(a, b)] for one-character [a] and [b]. *)
Fixpoint replace (a b : ascii) (s : string) : string :=
  match s with
  | EmptyString => EmptyString
  | String c s' => String (if Ascii.eqb c a then b else c) (replace a b s')
  end.

(** [s[0]]: raises IndexError on the empty string. *)
Definition index0 (s : string) : option ascii :=
  match s with EmptyString => None | String a _ => Some a end.

(** [any(p(x) for x in s)] *)
Fixpoint any_char (p : ascii -> bool) (s : string) : bool :=
  match s with
  | EmptyString => false
  | String a s' => p a || any_char p s'
  end.

(** The first [n] characters, and what follows them. *)
Fixpoint take (n : nat) (s : string) : string :=
  match n, s with
  | S n', String a s' => String a (take n' s')
  | _, _ => EmptyString
  end.

Fixpoint drop (n : nat) (s : string) : string :=
  match n, s with
  | S n', String _ s' => drop n' s'
  | _, _ => s
  end.

End PyStr.

(** ** Regular expressions: a backtracking matcher in the manner of [re] *)

Module Re.

Inductive regex : Type :=
| Eps : regex
| Chr : ascii -> regex                 (* a literal character *)
| Cls : (ascii -> bool) -> regex       (* a character class *)
| Cat : regex -> regex -> regex
| Alt : regex -> regex -> regex        (* ordered alternation *)
| Star : regex -> regex                (* greedy [*] *)
| Plus : regex -> regex                (* greedy [+] *)
| Grp : nat -> regex -> regex.         (* capturing group *)

(** A literal word, character by character. *)
Fixpoint Lit (s : string) : regex :=
  match s with
  | EmptyString => Eps
  | String a s' => Cat (Chr a) (Lit s')
  end.

Abbreviation captures := (gmap nat string).
Definition outcome : Type := string * captures.
Definition cont := string -> captures -> option outcome.

(** Greedy iteration: one more round of the body when it consumes
    input, else (or when every longer attempt fails) the continuation. *)
Fixpoint star_loop (body : string -> captures -> cont -> option outcome)
    (fuel : nat) (s : string) (caps : captures) (k : cont)
    : option outcome :=
  match fuel with
  | O => k s caps
  | S fuel' =>
      match body s caps (fun s' caps' =>
              if String.length s' <? String.length s
              then star_loop body fuel' s' caps' k else None) with
      | Some r => Some r
      | None => k s caps
      end
  end.

Fixpoint rmatch (r : regex) (s : string) (caps : captures) (k : cont)
    {struct r} : option outcome :=
  match r with
  | Eps => k s caps
  | Chr a =>
      match s with
      | String c s' => if Ascii.eqb c a then k s' caps else None
      | EmptyString => None
      end
  | Cls p =>
      match s with
      | String c s' => if p c then k s' caps else None
      | EmptyString => None
      end
  | Cat r1 r2 => rmatch r1 s caps (fun s' caps' => rmatch r2 s' caps' k)
  | Alt r1 r2 =>
      match rmatch r1 s caps k with
      | Some r => Some r
      | None => rmatch r2 s caps k
      end
  | Star r1 => star_loop (rmatch r1) (String.length s) s caps k
  | Plus r1 =>
      rmatch r1 s caps (fun s' caps' =>
        star_loop (rmatch r1) (String.length s') s' caps' k)
  | Grp n r1 =>
      rmatch r1 s caps (fun s' caps' =>
        k s' (<[n := PyStr.take (String.length s - String.length s') s]> caps'))
  end.

(** A match object: the span and the groups. *)
Record re_match : Type := ReMatch {
  m_start : nat;
  m_end : nat;
  m_caps : captures
}.

(** [m.group(n)]; every group of the patterns below takes part in
    every match, so the absent case is never read. *)
Definition group (m : re_match) (n : nat) : string :=
  default EmptyString (m_caps m !! n).

(** The match that starts exactly at the head of [s], if any. *)
Definition match_here (r : regex) (s : string) : option outcome :=
  rmatch r s ∅ (fun s' caps' => Some (s', caps')).

(** The leftmost match in [s], whose first character is at offset [pos]
    of the whole text. *)
Fixpoint search_from (r : regex) (pos : nat) (s : string)
    : option re_match :=
  match match_here r s with
  | Some (s', caps') =>
      Some (ReMatch pos (pos + (String.length s - String.length s')) caps')
  | None =>
      match s with
      | EmptyString => None
      | String _ s' => search_from r (S pos) s'
      end
  end.

(** [re.search(r, s)] *)
Definition search (r : regex) (s : string) : option re_match :=
  search_from r 0 s.

(** [re.finditer(r, s)]: successive leftmost matches, each search
    resuming where the previous match ended (one character further
    after an empty match). *)
Fixpoint finditer_from (r : regex) (fuel : nat) (pos : nat) (s : string)
    : list re_match :=
  match fuel with
  | O => []
  | S fuel' =>
      match search_from r pos s with
      | None => []
      | Some m =>
          let next := if m_end m =? m_start m then S (m_end m) else m_end m in
          m :: finditer_from r fuel' next (PyStr.drop (next - pos) s)
      end
  end.

Definition finditer (r : regex) (s : string) : list re_match :=
  finditer_from r (S (String.length s)) 0 s.

End Re.

(** ** The generator *)

Import Re.

(** [f"{x}"] for a value that is a str or [None]. *)
Definition fmt_opt (o : option string) : string :=
  match o with Some s => s | None => "None" end.

(** Truth value of a value that is a str or [None]. *)
Definition truthy (o : option string) : bool :=
  match o with Some s => negb (PyStr.is_empty s) | None => false end.

Definition class_method_prefixes : list string :=
  ["alloc"; "new"; "shared"; "default"; "class"].

(** [any(name.startswith(prefix) for prefix in class_method_prefixes)] *)
Definition has_class_prefix (name : string) : bool :=
  existsb (PyStr.startswith name) class_method_prefixes.

Module MethodCall.

Record t : Type := Build {
  caller_class : string;
  caller_method : string;
  callee_class : string;
  callee_method : string;
  caller_type : string;
  callee_type : string;
  invocation_index : option nat    (* unset until the graph is printed *)
}.

(** [MethodCall.__init__] *)
Definition init (caller_class caller_method callee_class callee_method : string)
    : t :=
  {| caller_class := caller_class;
     caller_method := caller_method;
     callee_class := callee_class;
     callee_method := callee_method;
     caller_type := if has_class_prefix caller_method then "+" else "-";
     callee_type := if has_class_prefix callee_method then "+" else "-";
     invocation_index := None |}.

Definition format_method_name (method_name : string) : string :=
  let name := PyStr.strip method_name in
  if PyStr.contains ":" name then
    let parts := map PyStr.strip (PyStr.split ":" name) in
    let parts := filter (fun p => negb (PyStr.is_empty p) = true) parts in
    PyStr.join ":" parts +:+ ":"
  else name.

Definition get_caller_signature (c : t) : string :=
  let method := format_method_name (caller_method c) in
  caller_type c +:+ "[" +:+ caller_class c +:+ " " +:+ method +:+ "]".

Definition get_callee_signature (c : t) : string :=
  let method := format_method_name (callee_method c) in
  callee_type c +:+ "[" +:+ callee_class c +:+ " " +:+ method +:+ "]".

(** [__str__] *)
Definition str (c : t) : string :=
  get_caller_signature c +:+ " -> " +:+ get_callee_signature c.

Definition set_invocation_index (i : nat) (c : t) : t :=
  {| caller_class := caller_class c;
     caller_method := caller_method c;
     callee_class := callee_class c;
     callee_method := callee_method c;
     caller_type := caller_type c;
     callee_type := callee_type c;
     invocation_index := Some i |}.

End MethodCall.

(** The patterns of the generator. *)
Module Pat.

Definition ws : regex := Cls PyChar.isspace.
Definition word : regex := Cls PyChar.isword.
Definition word_or_colon : regex :=
  Cls (fun c => PyChar.isword c || Ascii.eqb c ":").

Fixpoint Seq (rs : list regex) : regex :=
  match rs with
  | [] => Eps
  | [r] => r
  | r :: rs' => Cat r (Seq rs')
  end.

(** [([+-])\s*\(([\w\s*]+)\)]: the kind marker and the return type,
    shared by both method patterns. *)
Definition method_head : list regex :=
  [ Grp 1 (Cls (fun c => Ascii.eqb c "+" || Ascii.eqb c "-"));
    Star ws;
    Chr "(";
    Grp 2 (Plus (Cls (fun c =>
             PyChar.isword c || PyChar.isspace c || Ascii.eqb c "*")));
    Chr ")" ].

(** [@interface\s+(\w+)\s*:\s*(\w+)] *)
Definition interface_pattern : regex :=
  Seq [ Lit "@interface"; Plus ws; Grp 1 (Plus word); Star ws; Chr ":";
        Star ws; Grp 2 (Plus word) ].

(** [([+-])\s*\(([\w\s*]+)\)([\w:]+)[\s;]] *)
Definition interface_method_pattern : regex :=
  Seq (method_head ++
       [ Grp 3 (Plus word_or_colon);
         Cls (fun c => PyChar.isspace c || Ascii.eqb c ";") ]).

(** [@implementation\s+(\w+)] *)
Definition impl_pattern : regex :=
  Seq [ Lit "@implementation"; Plus ws; Grp 1 (Plus word) ].

(** [([+-])\s*\(([\w\s*]+)\)([\w:]+(?::\w+\s* )* )\s*[{;]], written here with a
    blank after each star that precedes a closing parenthesis. *)
Definition method_pattern : regex :=
  Seq (method_head ++
       [ Grp 3 (Cat (Plus word_or_colon)
                    (Star (Seq [Chr ":"; Plus word; Star ws])));
         Star ws;
         Cls (fun c => Ascii.eqb c "{" || Ascii.eqb c ";") ]).

(** [\[\s*(self|super|\w+)\s+([\w:]+(?:\s+\w+:)*[^\]]* )\]], with the same
    blank. *)
Definition method_calls_pattern : regex :=
  Seq [ Chr "["; Star ws;
        Grp 1 (Alt (Lit "self") (Alt (Lit "super") (Plus word)));
        Plus ws;
        Grp 2 (Seq [ Plus word_or_colon;
                     Star (Seq [Plus ws; Plus word; Chr ":"]);
                     Star (Cls (fun c => negb (Ascii.eqb c "]"))) ]);
        Chr "]" ].

End Pat.

Module CallGraphGenerator.

Record t : Type := Build {
  call_graph : list MethodCall.t;
  class_methods : gmap string (gset string);
  class_hierarchy : gmap string string;     (* class -> superclass *)
  current_class : option string
}.

(** [CallGraphGenerator.__init__] *)
Definition init : t :=
  {| call_graph := []; class_methods := ∅; class_hierarchy := ∅;
     current_class := None |}.

Definition set_call_graph (cg : list MethodCall.t) (g : t) : t :=
  {| call_graph := cg; class_methods := class_methods g;
     class_hierarchy := class_hierarchy g; current_class := current_class g |}.

Definition set_class_methods (cm : gmap string (gset string)) (g : t) : t :=
  {| call_graph := call_graph g; class_methods := cm;
     class_hierarchy := class_hierarchy g; current_class := current_class g |}.

Definition set_class_hierarchy (h : gmap string string) (g : t) : t :=
  {| call_graph := call_graph g; class_methods := class_methods g;
     class_hierarchy := h; current_class := current_class g |}.

Definition set_current_class (c : string) (g : t) : t :=
  {| call_graph := call_graph g; class_methods := class_methods g;
     class_hierarchy := class_hierarchy g; current_class := Some c |}.

(** [self.class_methods[class_name].add(method_name)] on a
    [defaultdict(set)]. *)
Definition add_method (class_name method_name : string) (g : t) : t :=
  set_class_methods
    (<[class_name := {[method_name]} ∪ default ∅ (class_methods g !! class_name)]>
       (class_methods g)) g.

Definition parse_interface (content class_name : string) (g : t) : t :=
  let g :=
    match search Pat.interface_pattern content with
    | Some m =>
        let superclass := group m 2 in
        set_class_hierarchy (<[class_name := superclass]> (class_hierarchy g)) g
    | None => g
    end in
  foldl (fun g m =>
           let method_name := group m 3 in
           add_method class_name method_name g)
        g (finditer Pat.interface_method_pattern content).

(** What the body of the loop over the call sites of a line does with
    one match. *)
Inductive call_step : Type :=
| Emit (c : MethodCall.t)
| Skip
| RaiseIndexError.

(** The receiver of a call site, resolved to a class. *)
Definition resolve_receiver (g : t) (cur callee_receiver : string) : string :=
  if String.eqb callee_receiver "self" then cur
  else if String.eqb callee_receiver "super" then
    default ("UnknownSuperOf" +:+ cur) (class_hierarchy g !! cur)
  else callee_receiver.

(** [callee_class[0].isupper() and not any(x.islower() for x in callee_class)] *)
Definition looks_like_class (callee_class : string) : option bool :=
  match PyStr.index0 callee_class with
  | None => None
  | Some c0 =>
      Some (PyChar.isupper c0 && negb (PyStr.any_char PyChar.islower callee_class))
  end.

(** The inline formatting of the callee's message name. *)
Definition inline_method_name (full_method : string) : string :=
  let method_name := PyStr.strip full_method in
  if PyStr.contains ":" method_name then
    let parts := map PyStr.strip (PyStr.split ":" method_name) in
    PyStr.join ":" parts +:+ ":"
  else method_name.

Definition process_call (g : t) (cur : string)
    (current_method current_method_type : option string) (call_match : re_match)
    : call_step :=
  let callee_receiver := group call_match 1 in
  let full_method := group call_match 2 in
  let callee_class := resolve_receiver g cur callee_receiver in
  if negb (PyStr.is_empty full_method) then
    let formatted_caller :=
      fmt_opt current_method_type +:+ " [" +:+ cur +:+ " "
        +:+ fmt_opt current_method +:+ "]" in
    let classified :=
      if has_class_prefix full_method then Some true
      else looks_like_class callee_class in
    match classified with
    | None => RaiseIndexError
    | Some is_class =>
        let callee_method_type := if is_class then "+" else "-" in
        let method_name := inline_method_name full_method in
        let formatted_callee :=
          callee_method_type +:+ " [" +:+ callee_class +:+ " "
            +:+ method_name +:+ "]" in
        let formatted_caller := PyStr.replace "." " " formatted_caller in
        let formatted_callee := PyStr.replace "." " " formatted_callee in
        Emit (MethodCall.init cur formatted_caller callee_class formatted_callee)
    end
  else Skip.

(** The loop over the call sites of one line; the flag tells whether
    an IndexError left the loop. *)
Fixpoint scan_calls (cur : string)
    (current_method current_method_type : option string)
    (calls : list re_match) (g : t) : t * bool :=
  match calls with
  | [] => (g, false)
  | call_match :: rest =>
      match process_call g cur current_method current_method_type call_match with
      | Emit c =>
          scan_calls cur current_method current_method_type rest
            (set_call_graph (call_graph g ++ [c]) g)
      | Skip => scan_calls cur current_method current_method_type rest g
      | RaiseIndexError => (g, true)
      end
  end.

(** The local variables of the loop over the lines. *)
Record context : Type := Context {
  current_method : option string;
  current_method_type : option string    (* "+" or "-" *)
}.

Definition no_context : context := Context None None.

(** One iteration of the loop over the lines. *)
Definition scan_line (cur : string) (ctx : context) (line : string) (g : t)
    : context * t * bool :=
  match search Pat.method_pattern line with
  | Some method_match =>
      (Context (Some (group method_match 3)) (Some (group method_match 1)),
       g, false)
  | None =>
      if truthy (current_method ctx) then
        let '(g', raised) :=
          scan_calls cur (current_method ctx) (current_method_type ctx)
            (finditer Pat.method_calls_pattern line) g in
        (ctx, g', raised)
      else (ctx, g, false)
  end.

Fixpoint scan_lines (cur : string) (ctx : context) (lines : list string)
    (g : t) : t * bool :=
  match lines with
  | [] => (g, false)
  | line :: rest =>
      let '(ctx', g', raised) := scan_line cur ctx line g in
      if raised then (g', true) else scan_lines cur ctx' rest g'
  end.

(** [parse_implementation]; the flag tells whether it raised. *)
Definition parse_implementation (content file_class_name : string) (g : t)
    : t * bool :=
  let cur :=
    match search Pat.impl_pattern content with
    | Some impl_match => group impl_match 1
    | None => file_class_name
    end in
  let g := set_current_class cur g in
  scan_lines cur no_context (PyStr.split "010" content) g.

End CallGraphGenerator.

(** ** Sorting, as [sorted] does it *)

(** The order of Python on pairs of strings: by the first component,
    then by the second. *)
Definition pair_le (x y : string * string) : Prop :=
  (x.1 ≠ y.1 ∧ String.le x.1 y.1) ∨ (x.1 = y.1 ∧ String.le x.2 y.2).

Global Instance pair_le_dec : RelDecision pair_le.
Proof. intros x y. unfold pair_le. apply _. Defined.

(** [x.invocation_index], read once the printing loop has set it. *)
Definition index_of (c : MethodCall.t) : nat :=
  default 0 (MethodCall.invocation_index c).

Definition index_le (a b : MethodCall.t) : Prop := index_of a ≤ index_of b.

Global Instance index_le_dec : RelDecision index_le.
Proof. intros a b. unfold index_le. apply _. Defined.

(** ** Reading files and printing the graph *)

Module Report.

Import CallGraphGenerator.

(** A path with what the generator asks of it: [str(p)], [p.stem],
    [p.suffix] and [p.read_text()], which yields the text or raises
    with a message. *)
Record source_file : Type := SourceFile {
  path_str : string;
  stem : string;
  suffix : string;
  read_text : string + string
}.

Definition error_line (f : source_file) (msg : string) : string :=
  "Error processing " +:+ path_str f +:+ ": " +:+ msg.

(** [analyze_file]: the new state and what was printed. *)
Definition analyze_file (f : source_file) (g : t) : t * list string :=
  match read_text f with
  | inr msg => (g, [error_line f msg])
  | inl content =>
      let class_name := stem f in
      if String.eqb (suffix f) ".h" then
        (parse_interface content class_name g, [])
      else if String.eqb (suffix f) ".m" then
        let '(g', raised) := parse_implementation content class_name g in
        (g', if raised then [error_line f "string index out of range"] else [])
      else (g, [])
  end.

(** The loop of [print_call_graph] that numbers the calls and groups
    them by caller class; the numbered calls are the objects of the
    graph itself. *)
Definition number_call
    (acc : nat * gmap string (list MethodCall.t) * list MethodCall.t)
    (call : MethodCall.t)
    : nat * gmap string (list MethodCall.t) * list MethodCall.t :=
  let '(invocation_count, by_caller, numbered) := acc in
  let call := MethodCall.set_invocation_index invocation_count call in
  (S invocation_count,
   <[MethodCall.caller_class call :=
       default [] (by_caller !! MethodCall.caller_class call) ++ [call]]> by_caller,
   numbered ++ [call]).

Definition hierarchy_line (e : string * string) : string :=
  e.1 +:+ " -> " +:+ e.2.

Definition fact_line (call : MethodCall.t) : string :=
  let invocation :=
    "invoke_" +:+ MethodCall.caller_class call +:+ "_"
      +:+ MethodCall.caller_method call +:+ "_" +:+ pretty (index_of call) in
  "  StaticMethodInvocation(" +:+ invocation +:+ ", "
    +:+ pretty (index_of call) +:+ ", "
    +:+ MethodCall.get_callee_signature call +:+ ", "
    +:+ MethodCall.get_caller_signature call +:+ ")".

Definition section_header (caller_class : string) : string :=
  String "010" "# " +:+ caller_class +:+ ":".

Definition section_lines (by_caller : gmap string (list MethodCall.t))
    (caller_class : string) : list string :=
  section_header caller_class
  :: (fact_line <$>
        merge_sort index_le (default [] (by_caller !! caller_class))).

Definition statistics_lines (g : t) : list string :=
  [ String "010" "Statistics:";
    "Total Classes: " +:+ pretty (size (class_methods g));
    "Total Methods: "
      +:+ pretty (sum_list ((fun e => size e.2) <$> map_to_list (class_methods g)));
    "Total Method Calls: " +:+ pretty (length (call_graph g)) ].

(** [print_call_graph]: the generator with its calls numbered, and the
    printed lines, one per call of [print]. *)
Definition print_call_graph (g : t) : t * list string :=
  let hierarchy :=
    hierarchy_line <$> merge_sort pair_le (map_to_list (class_hierarchy g)) in
  let '(_, by_caller, numbered) := foldl number_call (0, ∅, []) (call_graph g) in
  let g := set_call_graph numbered g in
  let sections :=
    concat (section_lines by_caller <$>
              merge_sort String.le (fst <$> map_to_list by_caller)) in
  (g,
   [ String "010" "Call Graph Analysis:"; "===================";
     String "010" "Class Hierarchy:" ]
   ++ hierarchy
   ++ [ String "010" "Method Calls (Doop Facts Format):" ]
   ++ sections
   ++ statistics_lines g).

(** The loops of [main] over the source files: headers first, then
    implementations; each file is announced before it is analyzed. *)
Fixpoint analyze_files (announce : string) (files : list source_file) (g : t)
    : t * list string :=
  match files with
  | [] => (g, [])
  | f :: rest =>
      let '(g1, out1) := analyze_file f g in
      let '(g2, out2) := analyze_files announce rest g1 in
      (g2, (announce +:+ path_str f) :: out1 ++ out2)
  end.

Definition has_suffix (sfx : string) (f : source_file) : bool :=
  String.eqb (suffix f) sfx.

(** [main], from the list of source files on. *)
Definition main (source_files : list source_file) : t * list string :=
  let generator := init in
  let out0 :=
    [ "Found " +:+ pretty (length source_files) +:+ " source files to analyze" ] in
  let '(generator, out1) :=
    analyze_files "Analyzing header: "
      (filter (fun f => has_suffix ".h" f = true) source_files) generator in
  let '(generator, out2) :=
    analyze_files "Analyzing implementation: "
      (filter (fun f => has_suffix ".m" f = true) source_files) generator in
  let '(generator, out3) := print_call_graph generator in
  (generator, out0 ++ out1 ++ out2 ++ out3).

(** The bytes written to standard output: each printed line and its
    newline. *)
Definition stdout (printed : list string) : string :=
  PyStr.join "" (map (fun l => l +:+ String "010" "") printed).

End Report.

(** * Sample units *)

Module Scenario.

Import CallGraphGenerator Report.

Definition nl : string := String "010" EmptyString.

Definition text (lines : list string) : string := PyStr.join nl lines.

(** The declaration unit of the end-to-end scenario. *)
Definition dog_h : string :=
  text ["@interface Dog : Animal"; "-(void)bark;"; "@end"].

(** Its definition unit, as the scenario writes it. *)
Definition dog_m : string :=
  text ["-(void) bark {"; "    [self growl];"; "    [Animal sharedInstance];";
        "}"].

(** The same unit with no blank between the return type and the name. *)
Definition dog_m_tight : string :=
  text ["-(void)bark {"; "    [self growl];"; "    [Animal sharedInstance];";
        "}"].

Definition dog_files (body : string) : list source_file :=
  [ SourceFile "Dog.h" "Dog" ".h" (inl dog_h);
    SourceFile "Dog.m" "Dog" ".m" (inl body) ].

(** A class-level method that sends a message to [self]. *)
Definition shared_m : string :=
  text ["+(id)sharedDog {"; "    [self growl];"; "}"].

(** Call sites with an all-capitals receiver, a lower-case receiver
    and a class-method prefix. *)
Definition kinds_m : string :=
  text ["-(void)run {"; "    [Animal sharedInstance];"; "    [worker doWork];";
        "    [URL fetch];"; "}"].

(** A call whose argument contains a dot. *)
Definition frame_m : string :=
  text ["-(void)layout {"; "    [self setFrame:view.frame];"; "}"].

(** The match of that call in its line and the edge made from it. *)
Definition frame_call : Re.re_match :=
  Re.ReMatch 4 30 {[ 1 := "self"; 2 := "setFrame:view.frame" ]}.

Definition frame_edge : MethodCall.t :=
  MethodCall.init "Dog" "- [Dog layout]" "Dog" "- [Dog setFrame:view frame:]".

(** The match of [[super helper]] in its line and the edge made from
    it in a unit for [C] without hierarchy entry. *)
Definition super_call : Re.re_match :=
  Re.ReMatch 4 18 {[ 1 := "super"; 2 := "helper" ]}.

Definition super_edge : MethodCall.t :=
  MethodCall.init "C" "- [C foo]" "UnknownSuperOfC" "- [UnknownSuperOfC helper]".

(** The second edge of the tight unit, once numbered. *)
Definition numbered_edge : MethodCall.t :=
  MethodCall.set_invocation_index 1
    (MethodCall.init "Dog" "- [Dog bark]" "Animal" "+ [Animal sharedInstance]").

(** Calls to [super] in a unit for class [C]. *)
Definition super_m : string :=
  text ["-(void)foo {"; "    [super helper];"; "    [self other];";
        "    [Helper make];"; "}"].

(** A header line that also holds a call, and a call before any header. *)
Definition inline_m : string :=
  text ["    [self early];"; "-(void)bark { [self growl]; }"; "    [self late];";
        "}"; "    [self stray];"].

(** A declaration unit whose header names another class than the unit. *)
Definition other_h : string :=
  text ["@interface X : Y"; "-(void)run;"; "+(id)sharedX;"; "@end"].

(** A run over the unit with the three kinds of call sites alone. *)
Definition kinds_files : list source_file :=
  [ SourceFile "Dog.m" "Dog" ".m" (inl kinds_m) ].

(** The state after two declaration units, with two hierarchy entries. *)
Definition two_classes : CallGraphGenerator.t :=
  parse_interface other_h "Z" (parse_interface dog_h "Dog" init).

End Scenario.

(** * Vocabulary of the statements *)

Section vocabulary.

Import Re CallGraphGenerator Report.

(** Does the pattern contain group [n]? *)
Fixpoint binds (n : nat) (r : regex) : bool :=
  match r with
  | Eps | Chr _ | Cls _ => false
  | Cat r1 r2 | Alt r1 r2 => binds n r1 || binds n r2
  | Star r1 | Plus r1 => binds n r1
  | Grp m r1 => (m =? n) || binds n r1
  end.

(** A successful run reaches its continuation, with the groups that
    the pattern does not contain left as they were. *)
Definition reaches (n : nat)
    (body : string → captures → cont → option outcome) : Prop :=
  ∀ s caps k res, body s caps k = Some res →
    ∃ s' caps', k s' caps' = Some res ∧ caps' !! n = caps !! n.

(** Left to right: each match of [finditer] starts at or after the end
    of the one before it, and strictly after its start. *)
Definition follows (m1 m2 : re_match) : Prop :=
  m_end m1 ≤ m_start m2 ∧ m_start m1 < m_start m2.

(** Canonicalization as the specification words it: a token without a
    colon is trimmed; otherwise it is split at the colons, the segments
    are trimmed, the empty ones dropped, the rest rejoined with a colon
    and closed with a colon. *)
Definition canonicalize (token : string) : string :=
  if PyStr.contains ":" token then
    PyStr.join ":"
      (filter (fun p => negb (PyStr.is_empty p) = true)
              (map PyStr.strip (PyStr.split ":" token))) +:+ ":"
  else PyStr.strip token.

(** Does [needle] occur in [hay]? *)
Fixpoint occurs (needle hay : string) : bool :=
  String.prefix needle hay
  || match hay with
     | EmptyString => false
     | String _ hay' => occurs needle hay'
     end.

(** The edges that the call sites of one line add, in the order of the
    call sites, up to the first one that raises. *)
Fixpoint call_edges (g : CallGraphGenerator.t) (cur : string)
    (cm cmt : option string) (calls : list re_match) : list MethodCall.t :=
  match calls with
  | [] => []
  | call_match :: rest =>
      match process_call g cur cm cmt call_match with
      | Emit c => c :: call_edges g cur cm cmt rest
      | Skip => call_edges g cur cm cmt rest
      | RaiseIndexError => []
      end
  end.

(** What one line adds to an empty graph. *)
Definition line_edges (g : CallGraphGenerator.t) (cur : string)
    (ctx : context) (line : string) : list MethodCall.t :=
  call_graph (scan_line cur ctx line (set_call_graph [] g)).1.2.

(** Line by line, what the lines of a unit add, up to the line that
    raises. *)
Fixpoint lines_edges (g : CallGraphGenerator.t) (cur : string)
    (ctx : context) (lines : list string) : list (list MethodCall.t) :=
  match lines with
  | [] => []
  | line :: rest =>
      let '(ctx', _, raised) := scan_line cur ctx line g in
      line_edges g cur ctx line
      :: (if raised then [] else lines_edges g cur ctx' rest)
  end.

(** File by file, what each file adds, given the state it is analyzed
    in. *)
Fixpoint files_edges (files : list source_file) (g : CallGraphGenerator.t)
    : list (list MethodCall.t) :=
  match files with
  | [] => []
  | f :: rest =>
      call_graph (analyze_file f (set_call_graph [] g)).1
      :: files_edges rest (analyze_file f g).1
  end.

(** The same state with the calls [cg] put before its own. *)
Definition prepend (cg : list MethodCall.t) (g : CallGraphGenerator.t)
    : CallGraphGenerator.t :=
  set_call_graph (cg ++ call_graph g) g.

(** The calls of a graph numbered by position, from [n] on. *)
Fixpoint number_from (n : nat) (l : list MethodCall.t) : list MethodCall.t :=
  match l with
  | [] => []
  | c :: l' => MethodCall.set_invocation_index n c :: number_from (S n) l'
  end.

(** The grouping by caller class that the printing loop builds. *)
Definition group_calls (by_caller : gmap string (list MethodCall.t))
    (l : list MethodCall.t) : gmap string (list MethodCall.t) :=
  foldl (fun bc c =>
           <[MethodCall.caller_class c :=
               default [] (bc !! MethodCall.caller_class c) ++ [c]]> bc)
        by_caller l.

(** The calls whose caller class is [cls]. *)
Definition calls_by (cls : string) (l : list MethodCall.t) : list MethodCall.t :=
  filter (fun c => MethodCall.caller_class c = cls) l.

(** No colon-delimited segment of the token is blank. *)
Definition no_blank_segment (token : string) : bool :=
  forallb (fun p => negb (PyStr.is_empty p))
          (map PyStr.strip (PyStr.split ":" token)).

(** Strictly ascending, on class names and on hierarchy entries. *)
Definition name_lt (x y : string) : Prop := x ≠ y ∧ String.le x y.

Definition entry_lt (x y : string * string) : Prop := name_lt x.1 y.1.

Definition index_lt (a b : MethodCall.t) : Prop := index_of a < index_of b.

End vocabulary.

(** * Selecting the source files *)

Module Sources.

(** An absolute path, as the list of its components below the root. *)
Definition path : Type := list string.

(** [str(p)] *)
Definition path_str (p : path) : string := String "/" (PyStr.join "/" p).

(** [p.name]: the last component, empty for the root. *)
Definition path_name (p : path) : string := List.last p EmptyString.

(** [needle in hay] on strings. *)
Fixpoint str_in (needle hay : string) : bool :=
  String.prefix needle hay
  || match hay with
     | EmptyString => false
     | String _ hay' => str_in needle hay'
     end.

(** The order of paths: component by component, a proper prefix first. *)
Fixpoint path_leb (p q : path) : bool :=
  match p, q with
  | [], _ => true
  | _ :: _, [] => false
  | a :: p', b :: q' => if String.eqb a b then path_leb p' q' else String.leb a b
  end.

Definition path_le (p q : path) : Prop := path_leb p q = true.

Global Instance path_le_dec : RelDecision path_le.
Proof. intros p q. unfold path_le. apply _. Defined.

(** One round of the loop that keeps one file per name: a file under an
    [iOS] path always takes the slot of its name, another file only a free
    slot. *)
Definition keep_file (result : gmap string path) (file : path)
    : gmap string path :=
  let key := path_name file in
  if str_in "iOS" (path_str file) || negb (bool_decide (is_Some (result !! key)))
  then <[key := file]> result
  else result.

(** [find_source_files] from the filter on Mac files on; the files that
    the globs found are its argument. *)
Definition select_source_files (source_files : list path) : list path :=
  let source_files :=
    filter (fun f => str_in "Mac" (path_str f) = false) source_files in
  let result := foldl keep_file ∅ source_files in
  merge_sort path_le (snd <$> map_to_list result).

End Sources.

(** * Further vocabulary *)

Section more_vocabulary.

Import Re CallGraphGenerator Report.

(** The least number of characters a match of the pattern takes. *)
Fixpoint minlen (r : regex) : nat :=
  match r with
  | Eps => 0
  | Chr _ | Cls _ => 1
  | Cat r1 r2 => minlen r1 + minlen r2
  | Alt r1 r2 => Nat.min (minlen r1) (minlen r2)
  | Star _ => 0
  | Plus r1 => minlen r1
  | Grp _ r1 => minlen r1
  end.

(** A successful run reaches its continuation with at least [d]
    characters taken. *)
Definition consumes (d : nat)
    (body : string → captures → cont → option outcome) : Prop :=
  ∀ s caps k res, body s caps k = Some res →
    ∃ s' caps', k s' caps' = Some res ∧ String.length s' + d ≤ String.length s.

(** A sufficient test that every match of the pattern leaves group [n]
    set to a non-empty text. *)
Fixpoint sets (n : nat) (r : regex) : bool :=
  match r with
  | Eps | Chr _ | Cls _ | Star _ | Plus _ => false
  | Cat r1 r2 => sets n r2 || (sets n r1 && negb (binds n r2))
  | Alt r1 r2 => sets n r1 && sets n r2
  | Grp m r1 => if m =? n then 1 <=? minlen r1 else sets n r1
  end.

(** Every recorded superclass is a non-empty name. *)
Definition good_hierarchy (g : CallGraphGenerator.t) : Prop :=
  map_Forall (fun _ (sup : string) => sup ≠ EmptyString) (class_hierarchy g).

(** Every class of the method table has a method, and no method name is
    empty. *)
Definition good_methods (g : CallGraphGenerator.t) : Prop :=
  map_Forall (fun _ (ms : gset string) => ms ≠ ∅ ∧ EmptyString ∉ ms)
             (class_methods g).

(** The method names a declaration unit declares, in the order found,
    and the superclass of its header, if it has one. *)
Definition declared_names (content : string) : list string :=
  (fun m => group m 3) <$> finditer Pat.interface_method_pattern content.

Definition declared_superclass (content : string) : option string :=
  (fun m => group m 2) <$> search Pat.interface_pattern content.

(** The set of the classes that call something. *)
Definition caller_classes (g : CallGraphGenerator.t) : gset string :=
  list_to_set (MethodCall.caller_class <$> call_graph g).

(** The number of line feeds in a text. *)
Fixpoint newlines (s : string) : nat :=
  match s with
  | EmptyString => 0
  | String a s' => (if Ascii.eqb a "010" then 1 else 0) + newlines s'
  end.

(** No text of a call, and no text of the state, holds a line feed. *)
Definition one_line_call (c : MethodCall.t) : Prop :=
  newlines (MethodCall.caller_class c) = 0
  ∧ newlines (MethodCall.caller_method c) = 0
  ∧ newlines (MethodCall.callee_class c) = 0
  ∧ newlines (MethodCall.callee_method c) = 0
  ∧ newlines (MethodCall.caller_type c) = 0
  ∧ newlines (MethodCall.callee_type c) = 0.

Definition one_line_texts (g : CallGraphGenerator.t) : Prop :=
  Forall (fun e : string * string => newlines e.1 = 0 ∧ newlines e.2 = 0)
         (map_to_list (class_hierarchy g))
  ∧ Forall one_line_call (call_graph g).

(** A file that can be read and has a non-empty stem. *)
Definition plain_file (f : source_file) : Prop :=
  stem f ≠ EmptyString ∧ ∃ content, read_text f = inl content.

End more_vocabulary.

(** * The report under an unknown order of enumeration

    The only places where the program reads a container without a fixed
    order of its own are in [print_call_graph]: [class_hierarchy.items()],
    [by_caller.keys()] and [class_methods.values()].  The state keeps the
    dicts as finite maps, which do not record in which order the entries
    were put in, and the order in which a dict hands its entries over is
    taken here as a parameter of the run: any listing of the entries.
    The units are read without enumerating any dict or set. *)

Module Enumerated.

Import CallGraphGenerator Report.

Record enumeration : Type := Enumeration {
  items : ∀ V : Type, gmap string V → list (string * V);
  items_perm : ∀ (V : Type) (m : gmap string V), items V m ≡ₚ map_to_list m
}.

Arguments items _ {_} _.

(** [d.keys()] and [d.values()] list the entries in the order of
    [d.items()]. *)
Definition keys {V} (e : enumeration) (m : gmap string V) : list string :=
  fst <$> items e m.

Definition values {V} (e : enumeration) (m : gmap string V) : list V :=
  snd <$> items e m.

(** Two enumerations: the entries as the finite map lists them, and the
    same backwards. *)
Definition stored : enumeration :=
  {| items := fun V m => map_to_list m;
     items_perm := fun V m => reflexivity (map_to_list m) |}.

Definition reversed : enumeration :=
  {| items := fun V m => reverse (map_to_list m);
     items_perm := fun V m => reverse_Permutation (map_to_list m) |}.

Definition statistics_lines_in (e : enumeration) (g : t) : list string :=
  [ String "010" "Statistics:";
    "Total Classes: " +:+ pretty (size (class_methods g));
    "Total Methods: "
      +:+ pretty (sum_list ((fun methods : gset string => size methods)
                              <$> values e (class_methods g)));
    "Total Method Calls: " +:+ pretty (length (call_graph g)) ].

(** [print_call_graph], the dicts enumerated by [e]. *)
Definition print_call_graph_in (e : enumeration) (g : t) : t * list string :=
  let hierarchy :=
    hierarchy_line <$> merge_sort pair_le (items e (class_hierarchy g)) in
  let '(_, by_caller, numbered) := foldl number_call (0, ∅, []) (call_graph g) in
  let g := set_call_graph numbered g in
  let sections :=
    concat (section_lines by_caller <$> merge_sort String.le (keys e by_caller)) in
  (g,
   [ String "010" "Call Graph Analysis:"; "===================";
     String "010" "Class Hierarchy:" ]
   ++ hierarchy
   ++ [ String "010" "Method Calls (Doop Facts Format):" ]
   ++ sections
   ++ statistics_lines_in e g).

(** [main], the dicts enumerated by [e]. *)
Definition main_in (e : enumeration) (source_files : list source_file)
    : t * list string :=
  let generator := init in
  let out0 :=
    [ "Found " +:+ pretty (length source_files) +:+ " source files to analyze" ] in
  let '(generator, out1) :=
    analyze_files "Analyzing header: "
      (filter (fun f => has_suffix ".h" f = true) source_files) generator in
  let '(generator, out2) :=
    analyze_files "Analyzing implementation: "
      (filter (fun f => has_suffix ".m" f = true) source_files) generator in
  let '(generator, out3) := print_call_graph_in e generator in
  (generator, out0 ++ out1 ++ out2 ++ out3).

End Enumerated.

(** * Properties *)

(** ** Strings *)

Section string_facts.

Import PyStr.

Lemma is_empty_true s : is_empty s = true ↔ s = EmptyString.
Proof. destruct s; simpl; split; congruence. Qed.

Lemma split_cons sep s : ∃ h t, split sep s = h :: t.
Proof.
  induction s as [|a s IH]; simpl; [by eauto|].
  destruct (Ascii.eqb a sep); [by eauto|].
  destruct IH as (h & t & ->). eauto.
Qed.

Lemma lstrip_space a s : PyChar.isspace a = true → lstrip (String a s) = lstrip s.
Proof. intros H. simpl. by rewrite H. Qed.

Lemma lstrip_nonspace a s :
  PyChar.isspace a = false → lstrip (String a s) = String a s.
Proof. intros H. simpl. by rewrite H. Qed.

Lemma rstrip_nonspace a s :
  PyChar.isspace a = false → rstrip (String a s) = String a (rstrip s).
Proof. intros H. simpl. rewrite H. by rewrite andb_false_r. Qed.

Lemma lstrip_rstrip s : lstrip (rstrip s) = rstrip (lstrip s).
Proof.
  induction s as [|a s IH]; [done|].
  destruct (PyChar.isspace a) eqn:Ha.
  - rewrite (lstrip_space a s Ha), <- IH. simpl. rewrite Ha, andb_true_r.
    destruct (rstrip s) eqn:Hr; simpl; [done|]. by rewrite Ha.
  - rewrite (lstrip_nonspace a s Ha), (rstrip_nonspace a s Ha).
    by apply lstrip_nonspace.
Qed.

Lemma strip_alt s : strip s = lstrip (rstrip s).
Proof. unfold strip. by rewrite lstrip_rstrip. Qed.

Lemma strip_space a s : PyChar.isspace a = true → strip (String a s) = strip s.
Proof. intros H. unfold strip. by rewrite lstrip_space. Qed.

Section separator.
Variable sep : ascii.
Hypothesis sep_nonspace : PyChar.isspace sep = false.

Lemma space_not_sep a : PyChar.isspace a = true → Ascii.eqb a sep = false.
Proof.
  intros Ha. apply Ascii.eqb_neq. intros ->. congruence.
Qed.

Lemma contains_lstrip s : contains sep (lstrip s) = contains sep s.
Proof.
  induction s as [|a s IH]; [done|]. simpl.
  destruct (PyChar.isspace a) eqn:Ha; [|done].
  by rewrite IH, (space_not_sep a Ha).
Qed.

Lemma contains_rstrip s : contains sep (rstrip s) = contains sep s.
Proof.
  induction s as [|a s IH]; [done|]. simpl.
  destruct (is_empty (rstrip s) && PyChar.isspace a) eqn:E; simpl.
  - apply andb_true_iff in E as [Hr Ha]. apply is_empty_true in Hr.
    rewrite Hr in IH. simpl in IH. by rewrite <- IH, (space_not_sep a Ha).
  - by rewrite IH.
Qed.

Lemma contains_strip s : contains sep (strip s) = contains sep s.
Proof. unfold strip. by rewrite contains_rstrip, contains_lstrip. Qed.

Lemma split_lstrip s :
  map strip (split sep (lstrip s)) = map strip (split sep s).
Proof.
  induction s as [|a s IH]; [done|].
  destruct (PyChar.isspace a) eqn:Ha.
  - rewrite (lstrip_space a s Ha), IH. simpl.
    rewrite (space_not_sep a Ha).
    destruct (split_cons sep s) as (h & t & ->). simpl.
    by rewrite (strip_space a h Ha).
  - by rewrite (lstrip_nonspace a s Ha).
Qed.

Lemma split_rstrip s :
  map rstrip (split sep (rstrip s)) = map rstrip (split sep s).
Proof.
  induction s as [|a s IH]; [done|]. simpl.
  destruct (is_empty (rstrip s) && PyChar.isspace a) eqn:E.
  - apply andb_true_iff in E as [Hr Ha]. apply is_empty_true in Hr.
    rewrite Hr in IH. rewrite (space_not_sep a Ha).
    destruct (split_cons sep s) as (h & t & Hs). rewrite Hs in IH |- *.
    simpl in IH |- *. injection IH as Hh Ht.
    rewrite <- Hh, <- Ht. simpl. by rewrite Ha.
  - simpl. destruct (Ascii.eqb a sep); simpl; [by rewrite IH|].
    destruct (split_cons sep s) as (h & t & Hs).
    destruct (split_cons sep (rstrip s)) as (h' & t' & Hs').
    rewrite Hs, Hs' in IH |- *. simpl in IH |- *.
    injection IH as Hh Ht. by rewrite Hh, Ht.
Qed.

Lemma split_strip s :
  map strip (split sep (strip s)) = map strip (split sep s).
Proof.
  rewrite <- (split_lstrip s).
  rewrite !(map_ext strip (fun x => lstrip (rstrip x)) strip_alt).
  rewrite <- !(map_map rstrip lstrip).
  unfold strip. by rewrite split_rstrip.
Qed.

End separator.

Lemma replace_app a b s1 s2 :
  replace a b (s1 +:+ s2) = replace a b s1 +:+ replace a b s2.
Proof. induction s1 as [|c s1 IH]; simpl; [done|]. by rewrite IH. Qed.

Lemma filter_nonempty_id (l : list string) :
  forallb (fun p => negb (is_empty p)) l = true →
  filter (fun p => negb (is_empty p) = true) l = l.
Proof.
  induction l as [|p l IH]; simpl; [done|].
  intros [Hp Hl]%andb_true_iff.
  rewrite filter_cons. destruct (decide _); [|done]. by rewrite IH.
Qed.

End string_facts.

(** ** The matcher *)

Section matcher_facts.

Import Re.

Lemma star_loop_reaches n body fuel :
  reaches n body → reaches n (fun s caps k => star_loop body fuel s caps k).
Proof.
  intros Hbody. induction fuel as [|fuel IH]; intros s caps k res; simpl.
  - intros H. by exists s, caps.
  - destruct (body s caps _) as [r|] eqn:E.
    + intros [= ->]. apply Hbody in E as (s1 & caps1 & E & Hc).
      destruct (String.length s1 <? String.length s); [|done].
      apply IH in E as (s2 & caps2 & E & Hc2).
      exists s2, caps2. split; [done|]. by rewrite Hc2.
    + intros H. by exists s, caps.
Qed.

Lemma rmatch_reaches n r : binds n r = false → reaches n (rmatch r).
Proof.
  induction r as [| a | p | r1 IH1 r2 IH2 | r1 IH1 r2 IH2 | r1 IH1 | r1 IH1
                 | m r1 IH1]; simpl; intros Hb s caps k res.
  - intros H. by exists s, caps.
  - destruct s as [|c s]; [done|]. destruct (Ascii.eqb c a); [|done].
    intros H. by exists s, caps.
  - destruct s as [|c s]; [done|]. destruct (p c); [|done].
    intros H. by exists s, caps.
  - apply orb_false_iff in Hb as [Hb1 Hb2]. intros H.
    apply (IH1 Hb1) in H as (s1 & caps1 & H & Hc1).
    apply (IH2 Hb2) in H as (s2 & caps2 & H & Hc2).
    exists s2, caps2. split; [done|]. by rewrite Hc2.
  - apply orb_false_iff in Hb as [Hb1 Hb2].
    destruct (rmatch r1 s caps k) eqn:E.
    + intros [= ->]. by apply (IH1 Hb1) in E.
    + intros H. by apply (IH2 Hb2) in H.
  - apply (star_loop_reaches n (rmatch r1) (String.length s) (IH1 Hb)).
  - intros H. apply (IH1 Hb) in H as (s1 & caps1 & H & Hc1).
    apply (star_loop_reaches n (rmatch r1) _ (IH1 Hb)) in H
      as (s2 & caps2 & H & Hc2).
    exists s2, caps2. split; [done|]. by rewrite Hc2.
  - apply orb_false_iff in Hb as [Hm Hb]. apply Nat.eqb_neq in Hm.
    intros H. apply (IH1 Hb) in H as (s1 & caps1 & H & Hc1).
    eexists _, _. split; [exact H|]. by rewrite lookup_insert_ne.
Qed.

(** A match found by a search was found at the head of some suffix,
    and its span lies at or after the starting offset. *)
Lemma search_from_inv r pos s m :
  search_from r pos s = Some m →
  (∃ t t', match_here r t = Some (t', m_caps m)) ∧
  pos ≤ m_start m ∧ m_start m ≤ m_end m.
Proof.
  revert pos. induction s as [|a s IH]; intros pos; simpl.
  - destruct (match_here r EmptyString) as [[t' caps']|] eqn:E; [|done].
    intros [= <-]. simpl. split; [by eauto|lia].
  - destruct (match_here r (String a s)) as [[t' caps']|] eqn:E.
    + intros [= <-]. simpl. split; [by eauto|lia].
    + intros H. apply IH in H as (H1 & H2 & H3). split; [done|lia].
Qed.

Lemma finditer_from_lower r fuel pos s :
  Forall (fun m => pos ≤ m_start m) (finditer_from r fuel pos s).
Proof.
  revert pos s. induction fuel as [|fuel IH]; intros pos s; simpl; [done|].
  destruct (search_from r pos s) as [m|] eqn:E; [|done].
  apply search_from_inv in E as (_ & Hs & He).
  constructor; [done|].
  eapply Forall_impl; [apply IH|]. simpl. intros m'.
  destruct (m_end m =? m_start m); lia.
Qed.

Lemma finditer_from_ordered r fuel pos s :
  Sorted follows (finditer_from r fuel pos s).
Proof.
  revert pos s. induction fuel as [|fuel IH]; intros pos s; simpl; [done|].
  destruct (search_from r pos s) as [m|] eqn:E; [|done].
  apply search_from_inv in E as (_ & Hs & He).
  constructor; [apply IH|].
  match goal with |- HdRel _ _ (finditer_from _ _ ?p ?t) =>
    pose proof (finditer_from_lower r fuel p t) as Hl;
    destruct (finditer_from r fuel p t) as [|m' l]
  end; constructor.
  apply Forall_cons in Hl as [Hl _]. unfold follows.
  destruct (m_end m =? m_start m) eqn:Eq;
    [apply Nat.eqb_eq in Eq | apply Nat.eqb_neq in Eq]; lia.
Qed.

Lemma finditer_ordered r s : Sorted follows (finditer r s).
Proof. apply finditer_from_ordered. Qed.

(** A pattern that opens with a one-character group. *)
Lemma rmatch_head_group n p rest s caps k res :
  rmatch (Cat (Grp n (Cls p)) rest) s caps k = Some res →
  ∃ c s', s = String c s' ∧ p c = true ∧
    rmatch rest s' (<[n := String c EmptyString]> caps) k = Some res.
Proof.
  simpl. destruct s as [|c s']; [done|].
  destruct (p c) eqn:Hp; [|done].
  replace (String.length (String c s') - String.length s') with 1
    by (simpl; lia).
  intros H. by exists c, s'.
Qed.

(** The kind marker captured by the method pattern is the [+] or [-]
    that opens the header. *)
Lemma method_pattern_marker line m :
  search Pat.method_pattern line = Some m →
  group m 1 = "+" ∨ group m 1 = "-".
Proof.
  intros H. apply search_from_inv in H as ((t & t' & H) & _).
  unfold match_here in H.
  lazymatch type of H with
  | rmatch ?r _ _ _ = _ =>
      let r' := eval cbv [Pat.method_pattern Pat.method_head Pat.Seq app] in r in
      change r with r' in H
  end.
  apply rmatch_head_group in H as (c & s' & -> & Hc & H).
  apply rmatch_reaches with (n := 1) in H as (s1 & caps1 & [= _ ->] & H1);
    [|reflexivity].
  unfold group. rewrite H1, lookup_insert_eq. simpl.
  apply orb_true_iff in Hc as [Hc|Hc]; apply Ascii.eqb_eq in Hc as ->; auto.
Qed.

End matcher_facts.

(** ** The scanning loops only ever append to the graph *)

Section append_only.

Import Re CallGraphGenerator Report.

Lemma prepend_own g : prepend (call_graph g) (set_call_graph [] g) = g.
Proof. destruct g. unfold prepend. simpl. by rewrite app_nil_r. Qed.

Lemma prepend_nil g : prepend [] g = g.
Proof. by destruct g. Qed.

Lemma scan_calls_prepend cg cur cm cmt calls g :
  scan_calls cur cm cmt calls (prepend cg g)
  = (prepend cg (scan_calls cur cm cmt calls g).1,
     (scan_calls cur cm cmt calls g).2).
Proof.
  revert g. induction calls as [|m rest IH]; intros g; simpl; [done|].
  change (process_call (prepend cg g) cur cm cmt m)
    with (process_call g cur cm cmt m).
  destruct (process_call g cur cm cmt m) as [c| |]; [|by apply IH|done].
  rewrite <- IH. f_equal. unfold prepend. simpl. by rewrite app_assoc.
Qed.

Lemma scan_line_prepend cg cur ctx line g :
  scan_line cur ctx line (prepend cg g)
  = ((scan_line cur ctx line g).1.1,
     prepend cg (scan_line cur ctx line g).1.2,
     (scan_line cur ctx line g).2).
Proof.
  unfold scan_line. destruct (search Pat.method_pattern line); [done|].
  destruct (truthy (current_method ctx)); [|done].
  rewrite scan_calls_prepend. by destruct (scan_calls _ _ _ _ g).
Qed.

Lemma scan_lines_prepend cg cur ctx lines g :
  scan_lines cur ctx lines (prepend cg g)
  = (prepend cg (scan_lines cur ctx lines g).1,
     (scan_lines cur ctx lines g).2).
Proof.
  revert ctx g. induction lines as [|line rest IH]; intros ctx g; simpl;
    [done|].
  rewrite scan_line_prepend.
  destruct (scan_line cur ctx line g) as [[ctx' g'] raised]. simpl.
  destruct raised; [done|]. apply IH.
Qed.

Lemma parse_implementation_prepend cg content name g :
  parse_implementation content name (prepend cg g)
  = (prepend cg (parse_implementation content name g).1,
     (parse_implementation content name g).2).
Proof.
  unfold parse_implementation.
  set (cur := match search _ _ with Some _ => _ | None => name end).
  change (set_current_class cur (prepend cg g))
    with (prepend cg (set_current_class cur g)).
  apply scan_lines_prepend.
Qed.

Lemma add_methods_prepend cg name (l : list re_match) g :
  foldl (fun g m => add_method name (group m 3) g) (prepend cg g) l
  = prepend cg (foldl (fun g m => add_method name (group m 3) g) g l).
Proof.
  revert g. induction l as [|m l IH]; intros g; simpl; [done|].
  exact (IH (add_method name (group m 3) g)).
Qed.

Lemma parse_interface_prepend cg content name g :
  parse_interface content name (prepend cg g)
  = prepend cg (parse_interface content name g).
Proof.
  unfold parse_interface. rewrite <- add_methods_prepend. f_equal.
  by destruct (search Pat.interface_pattern content).
Qed.

Lemma analyze_file_prepend cg f g :
  analyze_file f (prepend cg g)
  = (prepend cg (analyze_file f g).1, (analyze_file f g).2).
Proof.
  unfold analyze_file. destruct (read_text f) as [content|msg]; [|done].
  destruct (String.eqb (suffix f) ".h").
  { by rewrite parse_interface_prepend. }
  destruct (String.eqb (suffix f) ".m"); [|done].
  rewrite parse_implementation_prepend.
  by destruct (parse_implementation content (stem f) g).
Qed.

(** What a line, the lines of a unit and a file add is what they add
    to an empty graph. *)
Lemma scan_line_adds cur ctx line g :
  call_graph (scan_line cur ctx line g).1.2
  = call_graph g ++ line_edges g cur ctx line.
Proof.
  rewrite <- (prepend_own g) at 1. by rewrite scan_line_prepend.
Qed.

Lemma scan_line_other cur ctx line g :
  (scan_line cur ctx line g).1.2
  = set_call_graph (call_graph (scan_line cur ctx line g).1.2) g.
Proof.
  unfold scan_line. destruct (search Pat.method_pattern line);
    [by destruct g|].
  destruct (truthy (current_method ctx)); [|by destruct g].
  generalize (finditer Pat.method_calls_pattern line). intros calls.
  assert (∀ g, (scan_calls cur (current_method ctx) (current_method_type ctx)
                  calls g).1
               = set_call_graph
                   (call_graph (scan_calls cur (current_method ctx)
                                  (current_method_type ctx) calls g).1) g) as H.
  { clear g. induction calls as [|m rest IH]; intros g; simpl;
      [by destruct g|].
    destruct (process_call _ _ _ _ _); [|apply IH|by destruct g].
    by rewrite IH at 1. }
  specialize (H g). by destruct (scan_calls _ _ _ calls g).
Qed.

Lemma set_call_graph_own g : set_call_graph (call_graph g) g = g.
Proof. by destruct g. Qed.

Lemma scan_line_graph cg cur ctx line g :
  scan_line cur ctx line (set_call_graph cg g)
  = ((scan_line cur ctx line (set_call_graph [] g)).1.1,
     prepend cg (scan_line cur ctx line (set_call_graph [] g)).1.2,
     (scan_line cur ctx line (set_call_graph [] g)).2).
Proof.
  rewrite <- scan_line_prepend. f_equal.
  unfold prepend. simpl. by rewrite app_nil_r.
Qed.

Lemma lines_edges_graph cg cur ctx lines g :
  lines_edges (set_call_graph cg g) cur ctx lines = lines_edges g cur ctx lines.
Proof.
  revert ctx. induction lines as [|line rest IH]; intros ctx; simpl; [done|].
  change (line_edges (set_call_graph cg g) cur ctx line)
    with (line_edges g cur ctx line).
  pose proof (scan_line_graph (call_graph g) cur ctx line g) as Hg.
  rewrite set_call_graph_own in Hg. rewrite Hg, scan_line_graph.
  destruct (scan_line cur ctx line (set_call_graph [] g))
    as [[ctx' g'] raised]. simpl.
  destruct raised; [done|]. by rewrite IH.
Qed.

Lemma scan_lines_adds cur ctx lines g :
  call_graph (scan_lines cur ctx lines g).1
  = call_graph g ++ concat (lines_edges g cur ctx lines).
Proof.
  revert ctx g. induction lines as [|line rest IH]; intros ctx g; simpl.
  { by rewrite app_nil_r. }
  pose proof (scan_line_adds cur ctx line g) as Ha.
  pose proof (scan_line_other cur ctx line g) as Ho.
  destruct (scan_line cur ctx line g) as [[ctx' g'] raised].
  simpl in Ha, Ho. destruct raised; simpl.
  { by rewrite app_nil_r. }
  rewrite IH, Ha, Ho, lines_edges_graph. by rewrite app_assoc.
Qed.

Lemma analyze_file_adds f g :
  call_graph (analyze_file f g).1
  = call_graph g ++ call_graph (analyze_file f (set_call_graph [] g)).1.
Proof.
  rewrite <- (prepend_own g) at 1. by rewrite analyze_file_prepend.
Qed.

Lemma analyze_files_adds announce files g :
  call_graph (analyze_files announce files g).1
  = call_graph g ++ concat (files_edges files g).
Proof.
  revert g. induction files as [|f rest IH]; intros g; simpl.
  { by rewrite app_nil_r. }
  pose proof (analyze_file_adds f g) as Ha.
  destruct (analyze_file f g) as [g1 out1]. simpl in Ha.
  specialize (IH g1).
  destruct (analyze_files announce rest g1) as [g2 out2]. simpl in *.
  by rewrite IH, Ha, app_assoc.
Qed.

End append_only.

(** ** Orders used by the report *)

Section orders.

Global Instance pair_le_total : Total pair_le.
Proof.
  intros [x1 x2] [y1 y2]. unfold pair_le. simpl.
  destruct (decide (x1 = y1)) as [->|Hne].
  - destruct (total String.le x2 y2); auto.
  - destruct (total String.le x1 y1); [left; left|right; left]; auto.
Qed.

Global Instance pair_le_trans : Transitive pair_le.
Proof.
  intros [x1 x2] [y1 y2] [z1 z2]. unfold pair_le. simpl.
  intros [[Hxy Lxy]|[-> Lxy]] [[Hyz Lyz]|[-> Lyz]]; auto.
  - left. split; [|by etrans].
    intros ->. apply Hxy. by apply (anti_symm String.le).
  - right. split; [done|by etrans].
Qed.

Global Instance pair_le_antisymm : AntiSymm (=) pair_le.
Proof.
  intros [x1 x2] [y1 y2]. unfold pair_le. simpl.
  intros [[Hxy Lxy]|[-> Lxy]] [[Hyx Lyx]|[Heq Lyx]]; try congruence.
  - exfalso. apply Hxy. by apply (anti_symm String.le).
  - f_equal. by apply (anti_symm String.le).
Qed.

Global Instance index_le_trans : Transitive index_le.
Proof. unfold index_le. intros a b c. lia. Qed.

Global Instance index_le_total : Total index_le.
Proof. unfold index_le. intros a b. lia. Qed.

(** Sorting does not depend on the order in which a dict or a set
    hands over its entries. *)
Lemma sorted_perm_pairs (l1 l2 : list (string * string)) :
  l1 ≡ₚ l2 → merge_sort pair_le l1 = merge_sort pair_le l2.
Proof.
  intros E. apply (Sorted_unique pair_le); [apply Sorted_merge_sort, _..|].
  by rewrite !merge_sort_Permutation.
Qed.

Lemma sorted_perm_strings (l1 l2 : list string) :
  l1 ≡ₚ l2 → merge_sort String.le l1 = merge_sort String.le l2.
Proof.
  intros E. apply (Sorted_unique String.le); [apply Sorted_merge_sort, _..|].
  by rewrite !merge_sort_Permutation.
Qed.

End orders.

(** ** Numbering and grouping the calls *)

Section numbering.

Import CallGraphGenerator Report.

Lemma number_from_length n l : length (number_from n l) = length l.
Proof. revert n. induction l as [|c l IH]; intros n; simpl; auto. Qed.

Lemma number_from_indices n l :
  MethodCall.invocation_index <$> number_from n l
  = Some <$> seq n (length l).
Proof.
  revert n. induction l as [|c l IH]; intros n; simpl; [done|].
  by rewrite IH.
Qed.

Lemma number_from_lookup n l i c :
  number_from n l !! i = Some c →
  ∃ c0, l !! i = Some c0 ∧ c = MethodCall.set_invocation_index (n + i) c0.
Proof.
  revert n i. induction l as [|c0 l IH]; intros n i; simpl; [done|].
  destruct i as [|i]; simpl.
  - intros [= <-]. exists c0. by rewrite Nat.add_0_r.
  - intros H. apply IH in H as (c1 & H1 & ->). exists c1.
    split; [done|]. f_equal. lia.
Qed.

Lemma number_from_lower n l c : c ∈ number_from n l → n ≤ index_of c.
Proof.
  intros (i & H)%list_elem_of_lookup.
  apply number_from_lookup in H as (c0 & _ & ->). unfold index_of. simpl. lia.
Qed.

Lemma number_from_sorted n l : StronglySorted index_le (number_from n l).
Proof.
  revert n. induction l as [|c l IH]; intros n; simpl; constructor; [done|].
  apply Forall_forall. intros c' Hc'%number_from_lower.
  unfold index_le, index_of at 1. simpl. lia.
Qed.

Lemma number_from_index_inj n l c1 c2 :
  c1 ∈ number_from n l → c2 ∈ number_from n l →
  index_of c1 = index_of c2 → c1 = c2.
Proof.
  intros (i1 & H1)%list_elem_of_lookup (i2 & H2)%list_elem_of_lookup.
  apply number_from_lookup in H1 as (a1 & L1 & ->).
  apply number_from_lookup in H2 as (a2 & L2 & ->).
  unfold index_of. simpl. intros Hi.
  assert (i1 = i2) as -> by lia. congruence.
Qed.

Lemma number_from_again m n l : number_from n (number_from m l) = number_from n l.
Proof.
  revert m n. induction l as [|c l IH]; intros m n; simpl; [done|].
  by rewrite IH.
Qed.

Lemma number_from_classes n l :
  MethodCall.caller_class <$> number_from n l = MethodCall.caller_class <$> l.
Proof.
  revert n. induction l as [|c l IH]; intros n; simpl; [done|]. by rewrite IH.
Qed.

Lemma strongly_sorted_filter {A} (R : relation A) (P : A → Prop)
    `{!∀ x, Decision (P x)} (l : list A) :
  StronglySorted R l → StronglySorted R (filter P l).
Proof.
  induction 1 as [|x l Hl IH Hx]; [constructor|].
  rewrite filter_cons. destruct (decide (P x)); [|done].
  constructor; [done|].
  apply Forall_forall. intros y [_ Hy]%list_elem_of_filter.
  rewrite Forall_forall in Hx. auto.
Qed.

(** Sorting the calls of one caller by their number leaves them as
    the loop appended them. *)
Lemma sorted_calls_by cls n l :
  merge_sort index_le (calls_by cls (number_from n l))
  = calls_by cls (number_from n l).
Proof.
  apply (StronglySorted_unique_strong index_le).
  - intros c1 c2 H1 H2 L1 L2.
    rewrite merge_sort_Permutation in H1.
    apply list_elem_of_filter in H1 as [_ H1].
    apply list_elem_of_filter in H2 as [_ H2].
    apply (number_from_index_inj n l); [done..|].
    unfold index_le in *. lia.
  - apply StronglySorted_merge_sort; apply _.
  - apply strongly_sorted_filter, number_from_sorted.
  - apply merge_sort_Permutation.
Qed.

Lemma number_call_foldl n bc acc l :
  foldl number_call (n, bc, acc) l
  = (n + length l, group_calls bc (number_from n l), acc ++ number_from n l).
Proof.
  revert n bc acc. induction l as [|c l IH]; intros n bc acc; simpl.
  - by rewrite Nat.add_0_r, app_nil_r.
  - rewrite IH. f_equal; [f_equal; lia|]. by rewrite <- app_assoc.
Qed.

Lemma group_calls_lookup bc l cls :
  default [] (group_calls bc l !! cls)
  = default [] (bc !! cls) ++ calls_by cls l.
Proof.
  revert bc. induction l as [|c l IH]; intros bc; simpl.
  - by rewrite app_nil_r.
  - unfold group_calls in *. simpl. rewrite IH. unfold calls_by.
    rewrite filter_cons.
    destruct (decide (MethodCall.caller_class c = cls)) as [->|Hne].
    + rewrite lookup_insert_eq. simpl. by rewrite <- app_assoc.
    + by rewrite lookup_insert_ne.
Qed.

Lemma group_calls_keys bc l cls :
  is_Some (group_calls bc l !! cls)
  ↔ is_Some (bc !! cls) ∨ ∃ c, c ∈ l ∧ MethodCall.caller_class c = cls.
Proof.
  revert bc. induction l as [|c l IH]; intros bc.
  - split; [by left|]. intros [H|(c & H & _)]; [done|]. by inv H.
  - unfold group_calls in *. simpl. rewrite IH.
    destruct (decide (MethodCall.caller_class c = cls)) as [E|Hne].
    + rewrite E, lookup_insert_eq. split; intros _.
      * right. exists c. split; [apply elem_of_cons; auto|done].
      * left. by eexists.
    + rewrite lookup_insert_ne by done. split.
      * intros [H|(c' & H & E)]; [by left|].
        right. exists c'. split; [apply elem_of_cons; auto|done].
      * intros [H|(c' & H & E)]; [by left|].
        apply elem_of_cons in H as [->|H]; [done|].
        right. by exists c'.
Qed.

End numbering.

(** ** The report *)

Section report.

Import CallGraphGenerator Report.

Lemma sorted_names_strict (l : list string) :
  Sorted String.le l → NoDup l → Sorted name_lt l.
Proof.
  induction 1 as [|x l Hl IH Hx]; intros Hnd; [constructor|].
  apply NoDup_cons in Hnd as [Hx' Hnd]. constructor; [auto|].
  destruct Hx as [|y l Hxy]; constructor. split; [|done].
  intros ->. apply Hx'. apply elem_of_cons. auto.
Qed.

Lemma sorted_entries_strict (l : list (string * string)) :
  Sorted pair_le l → NoDup l.*1 → Sorted entry_lt l.
Proof.
  induction 1 as [|x l Hl IH Hx]; intros Hnd; [constructor|].
  rewrite fmap_cons in Hnd. apply NoDup_cons in Hnd as [Hx' Hnd].
  constructor; [auto|].
  destruct Hx as [|y l Hxy]; constructor.
  assert (x.1 ≠ y.1) as Hne.
  { intros E. apply Hx'. rewrite fmap_cons, E. apply elem_of_cons. auto. }
  split; [done|]. by destruct Hxy as [[_ ?]|[? _]].
Qed.

Lemma calls_by_index_sorted cls n l :
  StronglySorted index_lt (calls_by cls (number_from n l)).
Proof.
  apply strongly_sorted_filter.
  revert n. induction l as [|c l IH]; intros n; simpl; constructor; [done|].
  apply Forall_forall. intros c' Hc'%number_from_lower.
  unfold index_lt, index_of at 1. simpl. lia.
Qed.

(** What [print_call_graph] computes before it prints. *)
Lemma print_call_graph_unfold g :
  print_call_graph g
  = (set_call_graph (number_from 0 (call_graph g)) g,
     [ String "010" "Call Graph Analysis:"; "===================";
       String "010" "Class Hierarchy:" ]
     ++ (hierarchy_line <$> merge_sort pair_le (map_to_list (class_hierarchy g)))
     ++ [ String "010" "Method Calls (Doop Facts Format):" ]
     ++ concat
          ((fun cls =>
              section_header cls
              :: (fact_line <$> calls_by cls (number_from 0 (call_graph g))))
           <$> merge_sort String.le
                 (fst <$> map_to_list
                            (group_calls ∅ (number_from 0 (call_graph g)))))
     ++ statistics_lines g).
Proof.
  unfold print_call_graph. rewrite number_call_foldl.
  cbv beta iota zeta. rewrite app_nil_l.
  f_equal. do 3 (apply (f_equal2 app); [reflexivity|]).
  apply (f_equal2 app).
  - f_equal. apply list_fmap_ext. intros _ cls _. unfold section_lines.
    rewrite group_calls_lookup, lookup_empty. simpl.
    by rewrite sorted_calls_by.
  - unfold statistics_lines. simpl. by rewrite number_from_length.
Qed.

End report.

(** ** Where the edges of a unit come from *)

Section provenance.

Import Re CallGraphGenerator Report.

Lemma elem_of_concat {A} (x : A) (ls : list (list A)) :
  x ∈ concat ls ↔ ∃ l, l ∈ ls ∧ x ∈ l.
Proof.
  rewrite list_elem_of_In, in_concat. split; intros (l & H1 & H2); exists l;
    by rewrite ?list_elem_of_In in *.
Qed.

Lemma scan_calls_adds cur cm cmt calls g :
  call_graph (scan_calls cur cm cmt calls g).1
  = call_graph g ++ call_edges g cur cm cmt calls.
Proof.
  revert g. induction calls as [|m rest IH]; intros g; simpl.
  { by rewrite app_nil_r. }
  destruct (process_call g cur cm cmt m) as [c| |] eqn:E; simpl.
  - rewrite IH. simpl. rewrite <- app_assoc. simpl. do 2 f_equal.
    clear. induction rest as [|m' rest IH]; simpl; [done|].
    change (process_call (set_call_graph (call_graph g ++ [c]) g) cur cm cmt m')
      with (process_call g cur cm cmt m').
    by rewrite IH.
  - apply IH.
  - by rewrite app_nil_r.
Qed.

(** The edges of a line: none on a header line, none without an
    enclosing method, else those of its call sites from left to
    right. *)
Lemma line_edges_cases g cur ctx line :
  line_edges g cur ctx line
  = match search Pat.method_pattern line with
    | Some _ => []
    | None =>
        if truthy (current_method ctx)
        then call_edges g cur (current_method ctx) (current_method_type ctx)
               (finditer Pat.method_calls_pattern line)
        else []
    end.
Proof.
  unfold line_edges, scan_line.
  destruct (search Pat.method_pattern line); [done|].
  destruct (truthy (current_method ctx)); [|done].
  pose proof (scan_calls_adds cur (current_method ctx) (current_method_type ctx)
                (finditer Pat.method_calls_pattern line) (set_call_graph [] g)) as H.
  destruct (scan_calls _ _ _ _ (set_call_graph [] g)) as [g' raised].
  simpl in *. rewrite H. clear.
  generalize (finditer Pat.method_calls_pattern line). intros calls.
  induction calls as [|m rest IH]; simpl; [done|].
  change (process_call (set_call_graph [] g) cur (current_method ctx)
            (current_method_type ctx) m)
    with (process_call g cur (current_method ctx) (current_method_type ctx) m).
  by rewrite IH.
Qed.

(** The context after a line: that of the header when the line is
    one, else the context before it. *)
Lemma scan_line_context cur ctx line g :
  (scan_line cur ctx line g).1.1
  = match search Pat.method_pattern line with
    | Some m => Context (Some (group m 3)) (Some (group m 1))
    | None => ctx
    end.
Proof.
  unfold scan_line. destruct (search Pat.method_pattern line); [done|].
  destruct (truthy (current_method ctx)); [|done].
  by destruct (scan_calls _ _ _ _ g).
Qed.

(** An invariant of the contexts and a property of the edges emitted
    under it carry over to every edge of a unit. *)
Lemma lines_edges_forall (Inv : context → Prop) (P : MethodCall.t → Prop)
    g cur :
  (∀ line m, search Pat.method_pattern line = Some m →
     Inv (Context (Some (group m 3)) (Some (group m 1)))) →
  (∀ ctx call_match c, Inv ctx → truthy (current_method ctx) = true →
     process_call g cur (current_method ctx) (current_method_type ctx)
       call_match = Emit c → P c) →
  ∀ lines ctx, Inv ctx → Forall (Forall P) (lines_edges g cur ctx lines).
Proof.
  intros Hhead Hemit lines.
  induction lines as [|line rest IH]; intros ctx Hctx; simpl; [done|].
  pose proof (scan_line_context cur ctx line g) as Hc.
  destruct (scan_line cur ctx line g) as [[ctx' g'] raised]. simpl in Hc.
  constructor.
  - rewrite line_edges_cases.
    destruct (search Pat.method_pattern line); [done|].
    destruct (truthy (current_method ctx)) eqn:Ht; [|done].
    generalize (finditer Pat.method_calls_pattern line). intros calls.
    induction calls as [|m rest' IH']; simpl; [done|].
    destruct (process_call _ _ _ _ m) eqn:E; [|done..].
    constructor; [|done]. by eapply Hemit.
  - destruct raised; [done|]. apply IH. subst ctx'.
    destruct (search Pat.method_pattern line) eqn:E; [|done].
    by eapply Hhead.
Qed.

Lemma parse_implementation_adds content name g :
  let cur :=
    match search Pat.impl_pattern content with
    | Some impl_match => group impl_match 1
    | None => name
    end in
  call_graph (parse_implementation content name g).1
  = call_graph g
    ++ concat (lines_edges (set_current_class cur g) cur no_context
                 (PyStr.split "010" content)).
Proof.
  intros cur. unfold parse_implementation. fold cur.
  by rewrite scan_lines_adds.
Qed.

End provenance.

(** * Statements of the specification *)

Section statements.

Import Re CallGraphGenerator Report Scenario.

(** The sample matches are the ones [finditer] finds in their lines. *)
Example sample_calls_found :
  finditer Pat.method_calls_pattern "    [self setFrame:view.frame];" = [frame_call]
  ∧ finditer Pat.method_calls_pattern "    [super helper];" = [super_call].
Proof. vm_compute. split; reflexivity. Qed.

(** ** Kind markers *)

(** The kind of the enclosing method, as the loop over the lines holds
    it: unset, or the marker of the last header. *)
Lemma header_marker_cases line m :
  search Pat.method_pattern line = Some m →
  (fun ctx => current_method_type ctx = Some "+"
              ∨ current_method_type ctx = Some "-")
    (Context (Some (group m 3)) (Some (group m 1))).
Proof.
  intros [->| ->]%method_pattern_marker; simpl; auto.
Qed.

(** Both kind fields of a call are computed from text that opens with
    the marker and a blank, so the prefix test never succeeds. *)
Lemma process_call_types g cur ctx call_match c :
  current_method_type ctx = Some "+" ∨ current_method_type ctx = Some "-" →
  process_call g cur (current_method ctx) (current_method_type ctx) call_match
    = Emit c →
  MethodCall.caller_type c = "-" ∧ MethodCall.callee_type c = "-".
Proof.
  intros Hm. unfold process_call.
  destruct (negb _); [|done].
  destruct (if has_class_prefix _ then _ else _) as [is_class|]; [|done].
  intros [= <-]. unfold MethodCall.init. cbn [MethodCall.caller_type
    MethodCall.callee_type].
  split.
  - by destruct Hm as [-> | ->].
  - by destruct is_class.
Qed.

Lemma edges_types content name g c :
  c ∈ drop (length (call_graph g))
        (call_graph (parse_implementation content name g).1) →
  MethodCall.caller_type c = "-" ∧ MethodCall.callee_type c = "-".
Proof.
  rewrite parse_implementation_adds, drop_app_length.
  intros (es & Hes & Hc)%elem_of_concat.
  eapply Forall_forall in Hes;
    [|eapply (lines_edges_forall
                (fun ctx => current_method ctx = None
                            ∨ current_method_type ctx = Some "+"
                            ∨ current_method_type ctx = Some "-")
                (fun c => MethodCall.caller_type c = "-"
                          ∧ MethodCall.callee_type c = "-"))].
  - eapply Forall_forall in Hes; eauto.
  - intros line m Hs. right. by apply (header_marker_cases line m).
  - intros ctx m c' [Hn|Hm] Ht; [by rewrite Hn in Ht|].
    by apply process_call_types.
  - by left.
Qed.

(** C1, as the code runs it.  With the header of the definition unit
    written [-(void)bark {], two edges are recorded and numbered 0 and 1
    and the summary reports 1 class, 1 declared method and 2 call edges,
    but each rendered signature wraps an already rendered one: the edges
    print as [-[Dog - [Dog bark]] -> -[Dog - [Dog growl]]] and
    [-[Dog - [Dog bark]] -> -[Animal + [Animal sharedInstance]]], not as
    [-[Dog bark] -> -[Dog growl]] and
    [-[Dog bark] -> +[Animal sharedInstance]].  With the header written
    as in the scenario, with a blank between the return type and the
    method name, the header is not recognized and no call edge is
    recorded: the summary reports 1 class, 1 declared method and 0 call
    edges. *)
Theorem end_to_end_scenario_as_coded :
  (MethodCall.str <$> call_graph (main (dog_files dog_m_tight)).1
   = [ "-[Dog - [Dog bark]] -> -[Dog - [Dog growl]]";
       "-[Dog - [Dog bark]] -> -[Animal + [Animal sharedInstance]]" ]
   ∧ MethodCall.invocation_index <$> call_graph (main (dog_files dog_m_tight)).1
     = [Some 0; Some 1]
   ∧ (main (dog_files dog_m_tight)).2
     = [ "Found 2 source files to analyze"; "Analyzing header: Dog.h";
         "Analyzing implementation: Dog.m";
         String "010" "Call Graph Analysis:"; "===================";
         String "010" "Class Hierarchy:"; "Dog -> Animal";
         String "010" "Method Calls (Doop Facts Format):";
         String "010" "# Dog:";
         "  StaticMethodInvocation(invoke_Dog_- [Dog bark]_0, 0, "
           +:+ "-[Dog - [Dog growl]], -[Dog - [Dog bark]])";
         "  StaticMethodInvocation(invoke_Dog_- [Dog bark]_1, 1, "
           +:+ "-[Animal + [Animal sharedInstance]], -[Dog - [Dog bark]])";
         String "010" "Statistics:"; "Total Classes: 1"; "Total Methods: 1";
         "Total Method Calls: 2" ])
  ∧ (call_graph (main (dog_files dog_m)).1 = []
     ∧ (main (dog_files dog_m)).2
       = [ "Found 2 source files to analyze"; "Analyzing header: Dog.h";
           "Analyzing implementation: Dog.m";
           String "010" "Call Graph Analysis:"; "===================";
           String "010" "Class Hierarchy:"; "Dog -> Animal";
           String "010" "Method Calls (Doop Facts Format):";
           String "010" "Statistics:"; "Total Classes: 1"; "Total Methods: 1";
           "Total Method Calls: 0" ]).
Proof. vm_compute. repeat split. Qed.

(** C2, as the code runs it.  A method declared with a leading [+]
    keeps that marker in the stored caller text, but the kind rendered
    at the head of the caller signature is [-]: the edge of
    [+(id)sharedDog] renders its caller as [-[Dog + [Dog sharedDog]]]. *)
Theorem class_level_caller_rendered_with_minus :
  MethodCall.caller_method <$> call_graph (parse_implementation shared_m "Dog" init).1
  = ["+ [Dog sharedDog]"]
  ∧ MethodCall.caller_type <$> call_graph (parse_implementation shared_m "Dog" init).1
    = ["-"]
  ∧ MethodCall.get_caller_signature
      <$> call_graph (parse_implementation shared_m "Dog" init).1
    = ["-[Dog + [Dog sharedDog]]"].
Proof. vm_compute. repeat split. Qed.

(** The rule that classifies a callee: class level exactly when the
    message text starts with one of the prefixes or the resolved class
    opens with an upper-case character and has no lower-case one.  The
    outcome is the marker that opens the stored callee text. *)
Lemma callee_kind_rule g cur cm cmt call_match c :
  process_call g cur cm cmt call_match = Emit c →
  let callee_class := resolve_receiver g cur (group call_match 1) in
  let class_level :=
    has_class_prefix (group call_match 2)
    || match PyStr.index0 callee_class with
       | Some c0 =>
           PyChar.isupper c0
           && negb (PyStr.any_char PyChar.islower callee_class)
       | None => false
       end in
  MethodCall.callee_class c = callee_class
  ∧ MethodCall.callee_method c
    = PyStr.replace "." " "
        ((if class_level then "+" else "-") +:+ " [" +:+ callee_class +:+ " "
           +:+ inline_method_name (group call_match 2) +:+ "]").
Proof.
  unfold process_call, looks_like_class.
  destruct (negb _); [|done].
  destruct (has_class_prefix (group call_match 2)); simpl.
  - intros [= <-]. done.
  - destruct (PyStr.index0 _); [|done]. intros [= <-]. done.
Qed.

(** C3, as the code runs it.  The callees of [[Animal sharedInstance]],
    [[worker doWork]] and [[URL fetch]] are classified class level,
    instance and class level, and the stored callee text opens with
    that marker; the kind rendered at the head of every callee
    signature is [-] all the same. *)
Theorem class_level_callee_rendered_with_minus :
  MethodCall.callee_method <$> call_graph (parse_implementation kinds_m "Dog" init).1
  = ["+ [Animal sharedInstance]"; "- [worker doWork]"; "+ [URL fetch]"]
  ∧ MethodCall.callee_type <$> call_graph (parse_implementation kinds_m "Dog" init).1
    = ["-"; "-"; "-"]
  ∧ MethodCall.get_callee_signature
      <$> call_graph (parse_implementation kinds_m "Dog" init).1
    = [ "-[Animal + [Animal sharedInstance]]"; "-[worker - [worker doWork]]";
        "-[URL + [URL fetch]]" ].
Proof. vm_compute. repeat split. Qed.

(** ** Canonicalization *)

Lemma format_method_name_canonicalize s :
  MethodCall.format_method_name s = canonicalize s.
Proof.
  unfold MethodCall.format_method_name, canonicalize.
  rewrite contains_strip by reflexivity.
  destruct (PyStr.contains ":" s); [|done].
  by rewrite split_strip by reflexivity.
Qed.

Lemma inline_method_name_canonicalize s :
  PyStr.contains ":" s = false ∨ no_blank_segment s = true →
  inline_method_name s = canonicalize s.
Proof.
  unfold inline_method_name, canonicalize, no_blank_segment.
  rewrite contains_strip by reflexivity.
  destruct (PyStr.contains ":" s); [|done].
  intros [|H]; [done|].
  rewrite split_strip by reflexivity. by rewrite filter_nonempty_id.
Qed.

(** C4, the claim as it stands fails: the call [[self
    setFrame:view.frame]] has the message text [setFrame:view.frame],
    whose canonical form is [setFrame:view.frame:], and that form does
    not occur in the callee signature emitted for it. *)
Lemma embedded_name_not_canonical :
  (fun m => group m 2)
    <$> finditer Pat.method_calls_pattern "    [self setFrame:view.frame];"
  = ["setFrame:view.frame"]
  ∧ MethodCall.format_method_name "setFrame:view.frame" = "setFrame:view.frame:"
  ∧ MethodCall.get_callee_signature
      <$> call_graph (parse_implementation frame_m "Dog" init).1
    = ["-[Dog - [Dog setFrame:view frame:]:]"]
  ∧ occurs (MethodCall.format_method_name "setFrame:view.frame")
           "-[Dog - [Dog setFrame:view frame:]:]" = false.
Proof. vm_compute. repeat split. Qed.

(** C4, amended.  [format_method_name] follows the rule on every
    input: a token without a colon is trimmed; one with colons is split
    at them, the segments trimmed, the empty ones dropped, the rest
    joined by colons and closed by a colon; so ["foo: bar :"] gives
    ["foo:bar:"] and ["run"] gives ["run"].  The callee text stored
    with an emitted edge is the kind marker, the class and the
    canonical form of the message text in brackets, with every dot
    replaced by a blank, whenever the message text has no colon or no
    blank segment. *)
Theorem canonicalization_rule :
  (∀ s, MethodCall.format_method_name s = canonicalize s)
  ∧ MethodCall.format_method_name "foo: bar :" = "foo:bar:"
  ∧ MethodCall.format_method_name "run" = "run"
  ∧ (∀ g cur cm cmt call_match c,
       process_call g cur cm cmt call_match = Emit c →
       PyStr.contains ":" (group call_match 2) = false
       ∨ no_blank_segment (group call_match 2) = true →
       ∃ marker,
         (marker = "+" ∨ marker = "-")
         ∧ MethodCall.callee_method c
           = PyStr.replace "." " "
               (marker +:+ " [" +:+ MethodCall.callee_class c +:+ " "
                  +:+ canonicalize (group call_match 2) +:+ "]")).
Proof.
  split; [apply format_method_name_canonicalize|].
  split; [reflexivity|]. split; [reflexivity|].
  intros g cur cm cmt call_match c Hc Hs.
  apply callee_kind_rule in Hc as [Hcls Hm]. cbv zeta in Hm.
  rewrite Hcls, Hm, (inline_method_name_canonicalize _ Hs).
  eexists. split; [|reflexivity].
  destruct (_ || _); auto.
Qed.

Lemma canonicalization_rule_witness :
  MethodCall.format_method_name " run " = canonicalize " run "
  ∧ ∃ marker,
      (marker = "+" ∨ marker = "-")
      ∧ MethodCall.callee_method frame_edge
        = PyStr.replace "." " "
            (marker +:+ " [" +:+ MethodCall.callee_class frame_edge +:+ " "
               +:+ canonicalize (group frame_call 2) +:+ "]").
Proof.
  destruct canonicalization_rule as (Hrule & _ & _ & Hstored).
  split; [apply Hrule|].
  apply (Hstored init "Dog" (Some "layout") (Some "-") frame_call frame_edge).
  - vm_compute. reflexivity.
  - right. vm_compute. reflexivity.
Defined.

(** ** Receivers *)

(** C5.  For every call site that yields an edge, the callee class is
    the active class when the receiver is [self]; the recorded
    superclass of the active class when the receiver is [super] and the
    hierarchy has an entry, else the placeholder [UnknownSuperOf]
    followed by the active class; and the receiver itself otherwise.  A
    [super] call in a class without hierarchy entry always yields its
    edge, with the placeholder.  In a unit for [C] with an empty
    hierarchy, [[super helper]] has callee class [UnknownSuperOfC]; a
    unit for [B] under the hierarchy [B -> A] has callee class [A]. *)
Theorem receiver_resolution :
  (∀ g cur cm cmt call_match c,
     process_call g cur cm cmt call_match = Emit c →
     (group call_match 1 = "self" → MethodCall.callee_class c = cur)
     ∧ (group call_match 1 = "super" →
        ∀ sup, class_hierarchy g !! cur = Some sup →
               MethodCall.callee_class c = sup)
     ∧ (group call_match 1 = "super" → class_hierarchy g !! cur = None →
        MethodCall.callee_class c = "UnknownSuperOf" +:+ cur)
     ∧ (group call_match 1 ≠ "self" → group call_match 1 ≠ "super" →
        MethodCall.callee_class c = group call_match 1))
  ∧ (∀ g cur cm cmt call_match,
       group call_match 1 = "super" → class_hierarchy g !! cur = None →
       group call_match 2 ≠ EmptyString →
       ∃ c, process_call g cur cm cmt call_match = Emit c
            ∧ MethodCall.callee_class c = "UnknownSuperOf" +:+ cur)
  ∧ MethodCall.callee_class <$> call_graph (parse_implementation super_m "C" init).1
    = ["UnknownSuperOfC"; "C"; "Helper"]
  ∧ MethodCall.callee_class
      <$> call_graph (parse_implementation super_m "B"
                        (set_class_hierarchy {[ "B" := "A" ]} init)).1
    = ["A"; "B"; "Helper"].
Proof.
  split; [|split; [|by vm_compute]].
  - intros g cur cm cmt call_match c [Hc _]%callee_kind_rule.
    rewrite Hc. unfold resolve_receiver.
    repeat split.
    + by intros ->.
    + intros -> sup ->. done.
    + intros -> ->. done.
    + intros H1%String.eqb_neq H2%String.eqb_neq. by rewrite H1, H2.
  - intros g cur cm cmt call_match Hr Hh Hf.
    unfold process_call, resolve_receiver, looks_like_class.
    rewrite Hr, Hh. simpl.
    destruct (group call_match 2) as [|a full] eqn:E; [done|]. simpl.
    destruct (has_class_prefix (String a full)); by eexists.
Qed.

Lemma receiver_resolution_witness :
  MethodCall.callee_class super_edge = "UnknownSuperOf" +:+ "C"
  ∧ ∃ c, process_call init "C" (Some "foo") (Some "-") super_call = Emit c
         ∧ MethodCall.callee_class c = "UnknownSuperOf" +:+ "C".
Proof.
  destruct receiver_resolution as (Hcases & Hsuper & _).
  split.
  - apply (Hcases init "C" (Some "foo") (Some "-") super_call super_edge).
    + vm_compute. reflexivity.
    + vm_compute. reflexivity.
    + vm_compute. reflexivity.
  - apply (Hsuper init "C" (Some "foo") (Some "-") super_call).
    + vm_compute. reflexivity.
    + vm_compute. reflexivity.
    + vm_compute. discriminate.
Defined.

(** ** The enclosing method *)

Lemma scan_line_header cur ctx line g m :
  search Pat.method_pattern line = Some m →
  scan_line cur ctx line g
  = (Context (Some (group m 3)) (Some (group m 1)), g, false).
Proof. intros H. unfold scan_line. by rewrite H. Qed.

Lemma scan_line_idle cur ctx line g :
  search Pat.method_pattern line = None →
  truthy (current_method ctx) = false →
  scan_line cur ctx line g = (ctx, g, false).
Proof. intros H Ht. unfold scan_line. by rewrite H, Ht. Qed.

Lemma scan_lines_before_header cur pre rest g :
  Forall (fun line => search Pat.method_pattern line = None) pre →
  scan_lines cur no_context (pre ++ rest) g = scan_lines cur no_context rest g.
Proof.
  induction 1 as [|line pre Hline Hpre IH]; simpl; [done|].
  by rewrite (scan_line_idle cur no_context line g Hline eq_refl).
Qed.

Lemma scan_lines_body cur ctx body rest g :
  Forall (fun line => search Pat.method_pattern line = None) body →
  scan_lines cur ctx (body ++ rest) g
  = if (scan_lines cur ctx body g).2 then scan_lines cur ctx body g
    else scan_lines cur ctx rest (scan_lines cur ctx body g).1.
Proof.
  intros Hbody. revert g.
  induction Hbody as [|line body Hline Hbody IH]; intros g; simpl; [done|].
  pose proof (scan_line_context cur ctx line g) as Hc. rewrite Hline in Hc.
  destruct (scan_line cur ctx line g) as [[ctx' g'] raised].
  simpl in Hc. subst ctx'. destruct raised; [done|]. apply IH.
Qed.

(** C7.  A line that matches a method header sets the current method
    and kind from it and leaves the graph as it was, whatever else the
    line holds.  A line that matches no header keeps the context: with
    no method active it leaves the graph as it was, with one active it
    appends the edges of its call sites, attributed to that method.
    So the lines before the first header of a unit add nothing, and
    over a run of lines without header the context stays the one set
    before the run.  In the sample unit the call on the header line and
    the call before the header yield no edge, and the calls after the
    closing brace are attributed to the method above them. *)
Theorem method_context_tracking :
  (∀ cur ctx line g m,
     search Pat.method_pattern line = Some m →
     scan_line cur ctx line g
     = (Context (Some (group m 3)) (Some (group m 1)), g, false))
  ∧ (∀ cur ctx line g,
       search Pat.method_pattern line = None →
       (scan_line cur ctx line g).1.1 = ctx
       ∧ (truthy (current_method ctx) = false →
          scan_line cur ctx line g = (ctx, g, false))
       ∧ (truthy (current_method ctx) = true →
          call_graph (scan_line cur ctx line g).1.2
          = call_graph g
            ++ call_edges g cur (current_method ctx) (current_method_type ctx)
                 (finditer Pat.method_calls_pattern line)))
  ∧ (∀ cur pre rest g,
       Forall (fun line => search Pat.method_pattern line = None) pre →
       scan_lines cur no_context (pre ++ rest) g
       = scan_lines cur no_context rest g)
  ∧ (∀ cur ctx body rest g,
       Forall (fun line => search Pat.method_pattern line = None) body →
       scan_lines cur ctx (body ++ rest) g
       = if (scan_lines cur ctx body g).2 then scan_lines cur ctx body g
         else scan_lines cur ctx rest (scan_lines cur ctx body g).1)
  ∧ (fun c => (MethodCall.caller_method c, MethodCall.callee_method c))
      <$> call_graph (parse_implementation inline_m "Dog" init).1
    = [ ("- [Dog bark]", "- [Dog late]"); ("- [Dog bark]", "- [Dog stray]") ].
Proof.
  split; [apply scan_line_header|].
  split; [|split; [apply scan_lines_before_header|
                   split; [apply scan_lines_body|by vm_compute]]].
  intros cur ctx line g Hline. repeat split.
  - pose proof (scan_line_context cur ctx line g) as Hc. by rewrite Hline in Hc.
  - by apply scan_line_idle.
  - intros Ht. rewrite scan_line_adds, line_edges_cases. by rewrite Hline, Ht.
Qed.

Lemma method_context_tracking_witness :
  scan_line "Dog" no_context "-(void)bark { [self growl]; }" init
  = (Context (Some "bark") (Some "-"), init, false)
  ∧ scan_line "Dog" no_context "    [self early];" init = (no_context, init, false)
  ∧ scan_lines "Dog" no_context
      (["    [self early];"] ++ ["-(void)bark {"; "    [self late];"]) init
    = scan_lines "Dog" no_context ["-(void)bark {"; "    [self late];"] init
  ∧ scan_lines "Dog" (Context (Some "bark") (Some "-"))
      (["    [self late];"; "}"] ++ ["    [self stray];"]) init
    = scan_lines "Dog" (Context (Some "bark") (Some "-")) ["    [self stray];"]
        (scan_lines "Dog" (Context (Some "bark") (Some "-"))
           ["    [self late];"; "}"] init).1.
Proof.
  destruct method_context_tracking as (Hhead & Hplain & Hpre & Hbody & _).
  split; [|split; [|split]].
  - rewrite (Hhead "Dog" no_context "-(void)bark { [self growl]; }" init
               (ReMatch 0 13 {[ 1 := "-"; 2 := "void"; 3 := "bark" ]}))
      by (vm_compute; reflexivity).
    vm_compute. reflexivity.
  - destruct (Hplain "Dog" no_context "    [self early];" init) as (_ & Hidle & _).
    + vm_compute. reflexivity.
    + apply Hidle. vm_compute. reflexivity.
  - apply (Hpre "Dog" ["    [self early];"]).
    repeat constructor.
  - rewrite (Hbody "Dog" (Context (Some "bark") (Some "-"))
               ["    [self late];"; "}"] ["    [self stray];"] init).
    + vm_compute. reflexivity.
    + repeat constructor.
Defined.

(** ** Declaration units *)

Lemma add_methods_fold class_name (l : list re_match) g :
  let g' := foldl (fun g m => add_method class_name (group m 3) g) g l in
  call_graph g' = call_graph g
  ∧ class_hierarchy g' = class_hierarchy g
  ∧ (∀ k, k ≠ class_name → class_methods g' !! k = class_methods g !! k)
  ∧ default ∅ (class_methods g' !! class_name)
    = default ∅ (class_methods g !! class_name)
      ∪ list_to_set ((fun m => group m 3) <$> l).
Proof.
  revert g. induction l as [|m l IH]; intros g; simpl.
  - repeat split. by rewrite (right_id_L ∅ (∪)).
  - destruct (IH (add_method class_name (group m 3) g)) as (H1 & H2 & H3 & H4).
    simpl in *. repeat split; [done..| |].
    + intros k Hk. rewrite (H3 k Hk). simpl. by rewrite lookup_insert_ne.
    + rewrite H4. simpl. rewrite lookup_insert_eq. simpl.
      rewrite (comm_L (∪) {[group m 3]}). by rewrite (assoc_L (∪)).
Qed.

(** C9.  A declaration unit is recorded under the class name passed in
    with it: when the unit holds an [@interface X : Y] header, the
    hierarchy gets the entry from the passed name to [Y], and the
    captured [X] is not used; the declared methods are added to the set
    of the passed name and to no other.  A unit passed in as [Z] whose
    header reads [@interface X : Y] records [Z -> Y] and its methods
    under [Z], and nothing under [X]. *)
Theorem interface_recorded_under_passed_name :
  (∀ content class_name g,
     class_hierarchy (parse_interface content class_name g)
     = match search Pat.interface_pattern content with
       | Some m => <[class_name := group m 2]> (class_hierarchy g)
       | None => class_hierarchy g
       end
     ∧ (∀ k, k ≠ class_name →
          class_methods (parse_interface content class_name g) !! k
          = class_methods g !! k)
     ∧ default ∅ (class_methods (parse_interface content class_name g)
                     !! class_name)
       = default ∅ (class_methods g !! class_name)
         ∪ list_to_set ((fun m => group m 3)
                          <$> finditer Pat.interface_method_pattern content))
  ∧ (fun m => group m 1) <$> search Pat.interface_pattern other_h = Some "X"
  ∧ class_hierarchy (parse_interface other_h "Z" init) = {[ "Z" := "Y" ]}
  ∧ class_methods (parse_interface other_h "Z" init)
    = {[ "Z" := {[ "run"; "sharedX" ]} ]}.
Proof.
  split; [|by vm_compute].
  intros content class_name g. unfold parse_interface.
  match goal with |- context [foldl ?f ?g1 ?l] =>
    destruct (add_methods_fold class_name l g1) as (_ & H2 & H3 & H4)
  end.
  cbv zeta in *. rewrite H2, H4. split; [|split].
  - by destruct (search Pat.interface_pattern content).
  - intros k Hk. rewrite (H3 k Hk).
    by destruct (search Pat.interface_pattern content).
  - by destruct (search Pat.interface_pattern content).
Qed.

Lemma interface_recorded_under_passed_name_witness :
  class_methods (parse_interface other_h "Z" init) !! "X"
  = class_methods init !! "X".
Proof.
  destruct interface_recorded_under_passed_name as (Hgen & _).
  destruct (Hgen other_h "Z" init) as (_ & Hother & _).
  apply Hother. vm_compute. discriminate.
Defined.

(** ** Invocation indices *)

Lemma parse_interface_graph content name g :
  call_graph (parse_interface content name g) = call_graph g.
Proof.
  unfold parse_interface.
  match goal with |- context [foldl ?f ?g1 ?l] =>
    destruct (add_methods_fold name l g1) as (H1 & _)
  end.
  cbv zeta in H1. rewrite H1.
  by destruct (search Pat.interface_pattern content).
Qed.

Lemma analyze_files_headers announce files g :
  Forall (fun f => has_suffix ".h" f = true) files →
  call_graph (analyze_files announce files g).1 = call_graph g.
Proof.
  intros Hfiles. revert g.
  induction Hfiles as [|f files Hf Hfiles IH]; intros g; simpl; [done|].
  assert (call_graph (analyze_file f g).1 = call_graph g) as Hg.
  { unfold analyze_file. destruct (read_text f); [|done].
    unfold has_suffix in Hf. rewrite Hf. simpl.
    apply parse_interface_graph. }
  destruct (analyze_file f g) as [g1 out1]. specialize (IH g1).
  destruct (analyze_files announce files g1) as [g2 out2]. simpl in *.
  congruence.
Qed.

Lemma filter_all {A} (P : A → Prop) `{!∀ x, Decision (P x)} (l : list A) :
  Forall P (filter P l).
Proof. apply Forall_forall. by intros x [? _]%list_elem_of_filter. Qed.

(** C6.  Printing numbers the calls of the graph by their position:
    the indices are 0, 1, 2, ... in the order of the graph, one per
    call, and nothing else of a call changes.  The order of the graph
    is the order of discovery: a run appends, file by file in the order
    of processing, what each implementation file adds (header files add
    no call); a unit appends, line by line, what each line adds; a line
    adds the edges of its call sites in the order [finditer] yields
    them, which is left to right. *)
Theorem invocation_indices_follow_discovery :
  (∀ g,
     call_graph (print_call_graph g).1 = number_from 0 (call_graph g)
     ∧ MethodCall.invocation_index <$> call_graph (print_call_graph g).1
       = Some <$> seq 0 (length (call_graph g))
     ∧ ∀ i c, call_graph (print_call_graph g).1 !! i = Some c →
         ∃ c0, call_graph g !! i = Some c0
               ∧ c = MethodCall.set_invocation_index i c0)
  ∧ (∀ files,
       let headers := filter (fun f => has_suffix ".h" f = true) files in
       let impls := filter (fun f => has_suffix ".m" f = true) files in
       let g_h := (analyze_files "Analyzing header: " headers init).1 in
       call_graph (main files).1
       = number_from 0 (concat (files_edges impls g_h)))
  ∧ (∀ announce files g,
       call_graph (analyze_files announce files g).1
       = call_graph g ++ concat (files_edges files g))
  ∧ (∀ content name g,
       let cur :=
         match search Pat.impl_pattern content with
         | Some impl_match => group impl_match 1
         | None => name
         end in
       call_graph (parse_implementation content name g).1
       = call_graph g
         ++ concat (lines_edges (set_current_class cur g) cur no_context
                      (PyStr.split "010" content)))
  ∧ (∀ g cur ctx line,
       line_edges g cur ctx line
       = match search Pat.method_pattern line with
         | Some _ => []
         | None =>
             if truthy (current_method ctx)
             then call_edges g cur (current_method ctx)
                    (current_method_type ctx)
                    (finditer Pat.method_calls_pattern line)
             else []
         end)
  ∧ (∀ line, Sorted follows (finditer Pat.method_calls_pattern line)).
Proof.
  assert (∀ g, call_graph (print_call_graph g).1
               = number_from 0 (call_graph g)) as Hprint.
  { intros g. by rewrite print_call_graph_unfold. }
  split; [|split; [|split; [apply analyze_files_adds|
    split; [apply parse_implementation_adds|
      split; [apply line_edges_cases|intros; apply finditer_ordered]]]]].
  - intros g. rewrite Hprint. split; [done|].
    split; [apply number_from_indices|].
    intros i c Hc. by apply number_from_lookup in Hc.
  - intros files headers impls g_h.
    unfold main. fold headers impls.
    pose proof (analyze_files_headers "Analyzing header: " headers init
                  (filter_all _ files)) as Hh.
    subst g_h.
    destruct (analyze_files "Analyzing header: " headers init) as [g1 out1].
    pose proof (analyze_files_adds "Analyzing implementation: " impls g1) as Hm.
    destruct (analyze_files "Analyzing implementation: " impls g1) as [g2 out2].
    rewrite print_call_graph_unfold. simpl in *.
    by rewrite Hm, Hh.
Qed.

Lemma invocation_indices_follow_discovery_witness :
  ∃ c0, call_graph (parse_implementation dog_m_tight "Dog" init).1 !! 1 = Some c0
        ∧ numbered_edge = MethodCall.set_invocation_index 1 c0.
Proof.
  destruct invocation_indices_follow_discovery as (Hprint & _).
  destruct (Hprint (parse_implementation dog_m_tight "Dog" init).1)
    as (_ & _ & Hlookup).
  apply (Hlookup 1 numbered_edge). vm_compute. reflexivity.
Defined.

(** ** The report *)

(** C8, as the code runs it.  The layout is the one of the claim for
    every state: after the title lines the hierarchy as one line
    [Class -> Superclass] per entry, in strictly ascending order of the
    class; then, for each caller class in strictly ascending order, a
    header line and one fact line per call of that class, in ascending
    order of the invocation index; then the three counters: the number of
    classes in the table of declared methods, the number of declared
    methods, the number of calls.  The two signature fields of a fact
    line are made of the stored kind, the class and the stored method text
    formatted once more, and the invocation id carries the stored caller
    text.  In a run the stored texts are rendered signatures already and
    the stored kinds are [-], so the fields are not the signatures of the
    caller and the callee: the unit with the calls [[Animal
    sharedInstance]], [[worker doWork]] and [[URL fetch]] in [-(void)run]
    prints [-[Animal + [Animal sharedInstance]]], [-[worker - [worker
    doWork]]], [-[URL + [URL fetch]]] and [-[Dog - [Dog run]]], not
    [+[Animal sharedInstance]], [-[worker doWork]], [+[URL fetch]] and
    [-[Dog run]]. *)
Theorem report_shape_as_coded :
  (∀ g, ∃ (hierarchy : list (string * string)) (classes : list string),
    hierarchy ≡ₚ map_to_list (class_hierarchy g)
    ∧ Sorted entry_lt hierarchy
    ∧ Sorted name_lt classes
    ∧ (∀ cls, cls ∈ classes
              ↔ ∃ c, c ∈ call_graph g ∧ MethodCall.caller_class c = cls)
    ∧ (∀ cls, StronglySorted index_lt
                (calls_by cls (number_from 0 (call_graph g))))
    ∧ (print_call_graph g).2
      = [ String "010" "Call Graph Analysis:"; "===================";
          String "010" "Class Hierarchy:" ]
        ++ ((fun e => e.1 +:+ " -> " +:+ e.2) <$> hierarchy)
        ++ [ String "010" "Method Calls (Doop Facts Format):" ]
        ++ concat
             ((fun cls =>
                 (String "010" "# " +:+ cls +:+ ":")
                 :: ((fun call =>
                        "  StaticMethodInvocation("
                          +:+ ("invoke_" +:+ MethodCall.caller_class call
                                 +:+ "_" +:+ MethodCall.caller_method call
                                 +:+ "_" +:+ pretty (index_of call))
                          +:+ ", " +:+ pretty (index_of call)
                          +:+ ", "
                          +:+ (MethodCall.callee_type call +:+ "["
                                 +:+ MethodCall.callee_class call +:+ " "
                                 +:+ MethodCall.format_method_name
                                       (MethodCall.callee_method call)
                                 +:+ "]")
                          +:+ ", "
                          +:+ (MethodCall.caller_type call +:+ "["
                                 +:+ MethodCall.caller_class call +:+ " "
                                 +:+ MethodCall.format_method_name
                                       (MethodCall.caller_method call)
                                 +:+ "]")
                          +:+ ")")
                     <$> calls_by cls (number_from 0 (call_graph g))))
              <$> classes)
        ++ [ String "010" "Statistics:";
             "Total Classes: " +:+ pretty (size (class_methods g));
             "Total Methods: "
               +:+ pretty (sum_list ((fun e => size e.2)
                                       <$> map_to_list (class_methods g)));
             "Total Method Calls: " +:+ pretty (length (call_graph g)) ])
  ∧ (main kinds_files).2
    = [ "Found 1 source files to analyze"; "Analyzing implementation: Dog.m";
        String "010" "Call Graph Analysis:"; "===================";
        String "010" "Class Hierarchy:";
        String "010" "Method Calls (Doop Facts Format):";
        String "010" "# Dog:";
        "  StaticMethodInvocation(invoke_Dog_- [Dog run]_0, 0, "
          +:+ "-[Animal + [Animal sharedInstance]], -[Dog - [Dog run]])";
        "  StaticMethodInvocation(invoke_Dog_- [Dog run]_1, 1, "
          +:+ "-[worker - [worker doWork]], -[Dog - [Dog run]])";
        "  StaticMethodInvocation(invoke_Dog_- [Dog run]_2, 2, "
          +:+ "-[URL + [URL fetch]], -[Dog - [Dog run]])";
        String "010" "Statistics:"; "Total Classes: 0"; "Total Methods: 0";
        "Total Method Calls: 3" ].
Proof.
  split; [|by vm_compute].
  intros g.
  exists (merge_sort pair_le (map_to_list (class_hierarchy g))),
         (merge_sort String.le
            (fst <$> map_to_list (group_calls ∅ (number_from 0 (call_graph g))))).
  split; [apply merge_sort_Permutation|].
  split.
  { apply sorted_entries_strict; [apply Sorted_merge_sort, _|].
    rewrite merge_sort_Permutation. apply NoDup_fst_map_to_list. }
  split.
  { apply sorted_names_strict; [apply Sorted_merge_sort, _|].
    rewrite merge_sort_Permutation. apply NoDup_fst_map_to_list. }
  split.
  { intros cls. rewrite merge_sort_Permutation, list_elem_of_fmap.
    transitivity (is_Some (group_calls ∅ (number_from 0 (call_graph g)) !! cls)).
    - split.
      + intros ([k v] & -> & H%elem_of_map_to_list). by eexists.
      + intros [v H]. exists (cls, v). split; [done|].
        by apply elem_of_map_to_list.
    - rewrite group_calls_keys, lookup_empty. split.
      + intros [[? [=]]|(c & Hc & Hcls)].
        apply list_elem_of_lookup in Hc as (i & Hc).
        apply number_from_lookup in Hc as (c0 & Hc0 & ->).
        exists c0. split; [|done]. apply list_elem_of_lookup. eauto.
      + intros (c & Hc & Hcls). right.
        assert (cls ∈ MethodCall.caller_class <$> number_from 0 (call_graph g))
          as Hin.
        { rewrite number_from_classes. apply list_elem_of_fmap. eauto. }
        apply list_elem_of_fmap in Hin as (c' & -> & Hc'). eauto. }
  split; [intros cls; apply calls_by_index_sorted|].
  by rewrite print_call_graph_unfold.
Qed.

(** ** Determinism *)

Lemma print_call_graph_again g :
  print_call_graph (print_call_graph g).1 = print_call_graph g.
Proof.
  rewrite !print_call_graph_unfold. simpl. rewrite number_from_again.
  unfold statistics_lines. simpl. by rewrite number_from_length.
Qed.

(** What a listing of the entries of a dict gives once sorted, or
    summed, does not depend on the listing. *)
Lemma print_call_graph_in_any e g :
  Enumerated.print_call_graph_in e g = print_call_graph g.
Proof.
  unfold Enumerated.print_call_graph_in, print_call_graph.
  destruct (foldl number_call (0, ∅, []) (call_graph g))
    as [[n by_caller] numbered].
  f_equal. f_equal.
  rewrite (sorted_perm_pairs _ _ (Enumerated.items_perm e _ (class_hierarchy g))).
  f_equal. f_equal. f_equal.
  - unfold Enumerated.keys.
    rewrite (sorted_perm_strings (fst <$> Enumerated.items e by_caller)
               (fst <$> map_to_list by_caller)); [done|].
    by rewrite (Enumerated.items_perm e _ by_caller).
  - unfold Enumerated.statistics_lines_in, statistics_lines, Enumerated.values.
    do 3 f_equal.
    rewrite <- list_fmap_compose.
    by rewrite (Enumerated.items_perm e _ (class_methods (set_call_graph numbered g))).
Qed.

Lemma main_in_any e files : Enumerated.main_in e files = main files.
Proof.
  unfold Enumerated.main_in, main.
  destruct (analyze_files "Analyzing header: " _ init) as [g1 out1].
  destruct (analyze_files "Analyzing implementation: " _ g1) as [g2 out2].
  by rewrite print_call_graph_in_any.
Qed.

(** C10.  The one thing in a run that the program text and the list of
    source files do not fix is the order in which the dicts hand over
    their entries when the report enumerates them.  Whatever that order
    is in one run and in another, the two runs on the same list of source
    files end in the same state and print the same bytes; every such run
    is the run of [main].  Printing a second time, again in whatever
    order, gives the same lines and leaves the state as the first
    printing left it.  The orders do differ: the state with the two
    hierarchy entries of [Dog] and [Z] is enumerated in two ways. *)
Theorem run_independent_of_enumeration :
  (∀ e1 e2 files,
     (Enumerated.main_in e1 files).1 = (Enumerated.main_in e2 files).1
     ∧ stdout (Enumerated.main_in e1 files).2
       = stdout (Enumerated.main_in e2 files).2)
  ∧ (∀ e files, Enumerated.main_in e files = main files)
  ∧ (∀ e1 e2 g,
       Enumerated.print_call_graph_in e2 (Enumerated.print_call_graph_in e1 g).1
       = Enumerated.print_call_graph_in e1 g)
  ∧ Enumerated.items Enumerated.reversed (class_hierarchy two_classes)
    ≠ Enumerated.items Enumerated.stored (class_hierarchy two_classes).
Proof.
  split; [|split; [|split]].
  - intros e1 e2 files. by rewrite !main_in_any.
  - apply main_in_any.
  - intros e1 e2 g. rewrite !print_call_graph_in_any.
    apply print_call_graph_again.
  - vm_compute. discriminate.
Qed.

End statements.

(** * Further properties *)

(** ** What a match consumes and captures *)

Section captures.

Import Re.

Lemma star_loop_consumes body fuel :
  consumes 0 body → consumes 0 (fun s caps k => star_loop body fuel s caps k).
Proof.
  intros Hbody. induction fuel as [|fuel IH]; intros s caps k res; simpl.
  - intros H. exists s, caps. split; [done|lia].
  - destruct (body s caps _) as [r|] eqn:E.
    + intros [= ->]. apply Hbody in E as (s1 & caps1 & E & Hl).
      destruct (String.length s1 <? String.length s); [|done].
      apply IH in E as (s2 & caps2 & E & Hl2).
      exists s2, caps2. split; [done|lia].
    + intros H. exists s, caps. split; [done|lia].
Qed.

Lemma consumes_weaken d d' body : d' ≤ d → consumes d body → consumes d' body.
Proof.
  intros Hd Hb s caps k res H. apply Hb in H as (s' & caps' & H & Hl).
  exists s', caps'. split; [done|lia].
Qed.

Lemma rmatch_consumes r : consumes (minlen r) (rmatch r).
Proof.
  induction r as [| a | p | r1 IH1 r2 IH2 | r1 IH1 r2 IH2 | r1 IH1 | r1 IH1
                 | m r1 IH1]; simpl; intros s caps k res.
  - intros H. exists s, caps. split; [done|lia].
  - destruct s as [|c s]; [done|]. destruct (Ascii.eqb c a); [|done].
    intros H. exists s, caps. split; [done|simpl; lia].
  - destruct s as [|c s]; [done|]. destruct (p c); [|done].
    intros H. exists s, caps. split; [done|simpl; lia].
  - intros H. apply IH1 in H as (s1 & caps1 & H & Hl1).
    apply IH2 in H as (s2 & caps2 & H & Hl2).
    exists s2, caps2. split; [done|lia].
  - destruct (rmatch r1 s caps k) eqn:E.
    + intros [= ->]. apply IH1 in E as (s1 & caps1 & E & Hl).
      exists s1, caps1. split; [done|lia].
    + intros H. apply IH2 in H as (s1 & caps1 & E' & Hl).
      exists s1, caps1. split; [done|lia].
  - apply (star_loop_consumes (rmatch r1) (String.length s)).
    by apply (consumes_weaken (minlen r1)); [lia|].
  - intros H. apply IH1 in H as (s1 & caps1 & H & Hl1).
    apply (star_loop_consumes (rmatch r1)) in H as (s2 & caps2 & H & Hl2);
      [|by apply (consumes_weaken (minlen r1)); [lia|]].
    exists s2, caps2. split; [done|lia].
  - intros H. apply IH1 in H as (s1 & caps1 & H & Hl1).
    exists s1, (<[m := PyStr.take (String.length s - String.length s1) s]> caps1).
    split; [done|lia].
Qed.

Lemma take_nonempty n s :
  1 ≤ n → 1 ≤ String.length s → PyStr.take n s ≠ EmptyString.
Proof. destruct n, s; simpl; intros; (lia || done). Qed.

(** A pattern that passes the test leaves the group set and non-empty. *)
Lemma rmatch_sets n r :
  sets n r = true →
  ∀ s caps k res, rmatch r s caps k = Some res →
    ∃ s' caps' w, k s' caps' = Some res ∧ caps' !! n = Some w ∧ w ≠ EmptyString.
Proof.
  induction r as [| a | p | r1 IH1 r2 IH2 | r1 IH1 r2 IH2 | r1 IH1 | r1 IH1
                 | m r1 IH1]; simpl; try done; intros Hs s caps k res.
  - apply orb_true_iff in Hs as [Hs|[Hs Hb]%andb_true_iff].
    + intros H. apply rmatch_consumes in H as (s1 & caps1 & H & _).
      by apply (IH2 Hs) in H.
    + intros H. apply (IH1 Hs) in H as (s1 & caps1 & w & H & Hw & Hne).
      apply negb_true_iff in Hb.
      apply (rmatch_reaches n r2 Hb) in H as (s2 & caps2 & H & Hc).
      exists s2, caps2, w. by rewrite Hc.
  - apply andb_true_iff in Hs as [Hs1 Hs2].
    destruct (rmatch r1 s caps k) eqn:E.
    + intros [= ->]. by apply (IH1 Hs1) in E.
    + intros H. by apply (IH2 Hs2) in H.
  - destruct (m =? n) eqn:Hm.
    + apply Nat.eqb_eq in Hm as ->.
      assert (1 ≤ minlen r1) as Hs' by (destruct (minlen r1); [done|lia]).
      intros H. apply rmatch_consumes in H as (s1 & caps1 & H & Hl).
      eexists _, _, _. split; [exact H|].
      rewrite lookup_insert_eq. split; [done|].
      apply take_nonempty; lia.
    + apply Nat.eqb_neq in Hm.
      intros H. apply (IH1 Hs) in H as (s1 & caps1 & w & H & Hw & Hne).
      eexists _, _, w. split; [exact H|].
      by rewrite lookup_insert_ne.
Qed.

Lemma search_group r n s m :
  sets n r = true → search r s = Some m → group m n ≠ EmptyString.
Proof.
  intros Hs H. apply search_from_inv in H as ((t & t' & H) & _).
  unfold match_here in H.
  apply (rmatch_sets n r Hs) in H as (s1 & caps1 & w & [= _ ->] & Hw & Hne).
  unfold group. by rewrite Hw.
Qed.

Lemma finditer_group r n s :
  sets n r = true →
  Forall (fun m => group m n ≠ EmptyString) (finditer r s).
Proof.
  intros Hs. unfold finditer.
  assert (∀ fuel pos t,
            Forall (fun m => group m n ≠ EmptyString) (finditer_from r fuel pos t))
    as Hall; [|apply Hall].
  clear s. intros fuel.
  induction fuel as [|fuel IH]; intros pos s; simpl; [constructor|].
  destruct (search_from r pos s) as [m|] eqn:E; [|constructor].
  constructor; [|apply IH].
  apply search_from_inv in E as ((t & t' & H) & _).
  unfold match_here in H.
  apply (rmatch_sets n r Hs) in H as (s1 & caps1 & w & [= _ ->] & Hw & Hne).
  unfold group. by rewrite Hw.
Qed.

End captures.

(** ** Units that cannot fail *)

Section no_failure.

Import Re CallGraphGenerator Report.

Lemma pattern_groups_set :
  sets 1 Pat.method_calls_pattern = true
  ∧ sets 2 Pat.method_calls_pattern = true
  ∧ sets 1 Pat.method_pattern = true
  ∧ sets 3 Pat.method_pattern = true
  ∧ sets 2 Pat.interface_pattern = true
  ∧ sets 3 Pat.interface_method_pattern = true
  ∧ sets 1 Pat.impl_pattern = true.
Proof. repeat split. Qed.

Lemma resolve_receiver_nonempty g cur receiver :
  cur ≠ EmptyString → good_hierarchy g → receiver ≠ EmptyString →
  resolve_receiver g cur receiver ≠ EmptyString.
Proof.
  intros Hcur Hg Hr. unfold resolve_receiver.
  destruct (String.eqb receiver "self"); [done|].
  destruct (String.eqb receiver "super"); [|done].
  destruct (class_hierarchy g !! cur) as [sup|] eqn:E; simpl; [|done].
  by apply (Hg cur sup).
Qed.

Lemma process_call_emits g cur cm cmt call_match :
  cur ≠ EmptyString → good_hierarchy g →
  group call_match 1 ≠ EmptyString → group call_match 2 ≠ EmptyString →
  ∃ c, process_call g cur cm cmt call_match = Emit c.
Proof.
  intros Hcur Hg H1 H2. unfold process_call, looks_like_class.
  pose proof (resolve_receiver_nonempty g cur _ Hcur Hg H1) as Hr.
  destruct (group call_match 2) as [|a full]; [done|]. simpl negb. cbv iota.
  destruct (resolve_receiver g cur (group call_match 1)) as [|c0 rest]; [done|].
  simpl PyStr.index0.
  destruct (has_class_prefix (String a full)); by eexists.
Qed.

Lemma good_hierarchy_graph cg g :
  good_hierarchy g → good_hierarchy (set_call_graph cg g).
Proof. done. Qed.

Lemma scan_calls_no_raise cur cm cmt calls g :
  cur ≠ EmptyString → good_hierarchy g →
  Forall (fun m => group m 1 ≠ EmptyString ∧ group m 2 ≠ EmptyString) calls →
  (scan_calls cur cm cmt calls g).2 = false.
Proof.
  intros Hcur Hg Hcalls. revert g Hg.
  induction Hcalls as [|m rest [H1 H2] Hrest IH]; intros g Hg; simpl; [done|].
  destruct (process_call_emits g cur cm cmt m Hcur Hg H1 H2) as (c & ->).
  by apply IH.
Qed.

Lemma call_sites_nonempty line :
  Forall (fun m => group m 1 ≠ EmptyString ∧ group m 2 ≠ EmptyString)
         (finditer Pat.method_calls_pattern line).
Proof.
  apply Forall_and. split; by apply finditer_group.
Qed.

Lemma scan_line_no_raise cur ctx line g :
  cur ≠ EmptyString → good_hierarchy g →
  (scan_line cur ctx line g).2 = false
  ∧ good_hierarchy (scan_line cur ctx line g).1.2.
Proof.
  intros Hcur Hg. split.
  - unfold scan_line. destruct (search Pat.method_pattern line); [done|].
    destruct (truthy (current_method ctx)); [|done].
    pose proof (scan_calls_no_raise cur (current_method ctx)
                  (current_method_type ctx) _ g Hcur Hg
                  (call_sites_nonempty line)) as H.
    by destruct (scan_calls _ _ _ _ g).
  - rewrite scan_line_other. by apply good_hierarchy_graph.
Qed.

Lemma scan_lines_no_raise cur ctx lines g :
  cur ≠ EmptyString → good_hierarchy g →
  (scan_lines cur ctx lines g).2 = false.
Proof.
  intros Hcur. revert ctx g.
  induction lines as [|line rest IH]; intros ctx g Hg; simpl; [done|].
  destruct (scan_line_no_raise cur ctx line g Hcur Hg) as [Hr Hg'].
  destruct (scan_line cur ctx line g) as [[ctx' g'] raised]. simpl in *.
  subst raised. by apply IH.
Qed.

Lemma active_class_nonempty content name :
  name ≠ EmptyString →
  match search Pat.impl_pattern content with
  | Some impl_match => group impl_match 1
  | None => name
  end ≠ EmptyString.
Proof.
  intros Hname. destruct (search Pat.impl_pattern content) as [m|] eqn:E; [|done].
  by apply (search_group Pat.impl_pattern 1 content).
Qed.

Lemma parse_implementation_no_raise content name g :
  name ≠ EmptyString → good_hierarchy g →
  (parse_implementation content name g).2 = false.
Proof.
  intros Hname Hg. unfold parse_implementation.
  apply scan_lines_no_raise; [by apply active_class_nonempty|done].
Qed.

(** X1.  A definition unit whose fallback class name is not empty, read
    under a hierarchy without empty superclass names, never raises: the
    index into the callee class always finds a character. *)
Theorem parse_implementation_never_raises content name g :
  name ≠ EmptyString → good_hierarchy g →
  (parse_implementation content name g).2 = false.
Proof. apply parse_implementation_no_raise. Qed.

Lemma parse_implementation_never_raises_witness :
  (parse_implementation Scenario.super_m "C" init).2 = false.
Proof.
  apply parse_implementation_never_raises.
  - vm_compute. discriminate.
  - unfold good_hierarchy. vm_compute. intros i x H. discriminate.
Defined.

End no_failure.

(** ** What each kind of unit leaves alone *)

Section frames.

Import Re CallGraphGenerator Report.

Lemma scan_lines_other cur ctx lines g :
  (scan_lines cur ctx lines g).1
  = set_call_graph (call_graph (scan_lines cur ctx lines g).1) g.
Proof.
  revert ctx g. induction lines as [|line rest IH]; intros ctx g; simpl.
  { by destruct g. }
  pose proof (scan_line_other cur ctx line g) as Ho.
  destruct (scan_line cur ctx line g) as [[ctx' g'] raised]. simpl in Ho.
  destruct raised; simpl; [done|].
  rewrite IH. rewrite Ho at 2. done.
Qed.

Lemma add_methods_current class_name (l : list re_match) g :
  current_class (foldl (fun g m => add_method class_name (group m 3) g) g l)
  = current_class g.
Proof.
  revert g. induction l as [|m l IH]; intros g; simpl; [done|].
  by rewrite IH.
Qed.

Lemma parse_implementation_other content name g :
  class_methods (parse_implementation content name g).1 = class_methods g
  ∧ class_hierarchy (parse_implementation content name g).1 = class_hierarchy g
  ∧ current_class (parse_implementation content name g).1
    = Some match search Pat.impl_pattern content with
           | Some impl_match => group impl_match 1
           | None => name
           end.
Proof. unfold parse_implementation. rewrite scan_lines_other. done. Qed.

(** X2.  A definition unit changes neither the table of declared
    methods nor the hierarchy, and leaves the current class set to the
    name of its [@implementation] header, or to the name passed in when
    there is none.  A declaration unit changes neither the call graph nor
    the current class. *)
Theorem units_leave_the_rest_alone content name g :
  (class_methods (parse_implementation content name g).1 = class_methods g
   ∧ class_hierarchy (parse_implementation content name g).1 = class_hierarchy g
   ∧ current_class (parse_implementation content name g).1
     = Some match search Pat.impl_pattern content with
            | Some impl_match => group impl_match 1
            | None => name
            end)
  ∧ (call_graph (parse_interface content name g) = call_graph g
     ∧ current_class (parse_interface content name g) = current_class g).
Proof.
  split; [apply parse_implementation_other|].
  split; [apply parse_interface_graph|].
  unfold parse_interface. rewrite add_methods_current.
  by destruct (search Pat.interface_pattern content).
Qed.

Lemma add_methods_good class_name (l : list re_match) g :
  Forall (fun m => group m 3 ≠ EmptyString) l → good_methods g →
  good_methods (foldl (fun g m => add_method class_name (group m 3) g) g l).
Proof.
  intros Hl. revert g. induction Hl as [|m l Hm Hl IH]; intros g Hg; simpl;
    [done|].
  apply IH. unfold good_methods, add_method. simpl.
  apply map_Forall_insert_2; [|done].
  destruct (class_methods g !! class_name) as [ms|] eqn:E; simpl.
  - destruct (Hg class_name ms E) as [Hne Hin]. split.
    + intros Hu. apply Hne. apply (anti_symm (⊆)); [|apply empty_subseteq].
      rewrite <- Hu. apply union_subseteq_r.
    + intros [Hx%elem_of_singleton|Hx]%elem_of_union; [by apply Hm|done].
  - split.
    + intros Hu. apply (not_elem_of_empty (C := gset string) (group m 3)).
      rewrite <- Hu. apply elem_of_union_l. by apply elem_of_singleton.
    + intros [Hx%elem_of_singleton|Hx]%elem_of_union; [by apply Hm|].
      by apply not_elem_of_empty in Hx.
Qed.

Lemma parse_interface_good content name g :
  good_hierarchy g → good_methods g →
  good_hierarchy (parse_interface content name g)
  ∧ good_methods (parse_interface content name g).
Proof.
  intros Hh Hm. unfold parse_interface. split.
  - unfold good_hierarchy.
    match goal with |- context [foldl ?f ?g1 ?l] =>
      destruct (add_methods_fold name l g1) as (_ & H2 & _)
    end.
    cbv zeta in H2. rewrite H2.
    destruct (search Pat.interface_pattern content) as [m|] eqn:E; [|done].
    simpl. apply map_Forall_insert_2; [|done].
    by apply (search_group Pat.interface_pattern 2 content).
  - apply add_methods_good; [by apply finditer_group|].
    by destruct (search Pat.interface_pattern content).
Qed.

Lemma analyze_file_good f g :
  good_hierarchy g → good_methods g →
  good_hierarchy (analyze_file f g).1 ∧ good_methods (analyze_file f g).1.
Proof.
  intros Hh Hm. unfold analyze_file.
  destruct (read_text f) as [content|msg]; [|done].
  destruct (String.eqb (suffix f) ".h"); [by apply parse_interface_good|].
  destruct (String.eqb (suffix f) ".m"); [|done].
  destruct (parse_implementation_other content (stem f) g) as (H1 & H2 & _).
  destruct (parse_implementation content (stem f) g) as [g' raised].
  simpl in *. unfold good_hierarchy, good_methods. by rewrite H1, H2.
Qed.

End frames.

(** ** Whole runs *)

Section runs.

Import Re CallGraphGenerator Report.

Lemma analyze_files_good announce files g :
  good_hierarchy g → good_methods g →
  good_hierarchy (analyze_files announce files g).1
  ∧ good_methods (analyze_files announce files g).1.
Proof.
  revert g. induction files as [|f rest IH]; intros g Hh Hm; simpl; [done|].
  destruct (analyze_file_good f g Hh Hm) as [Hh1 Hm1].
  destruct (analyze_file f g) as [g1 out1]. simpl in *.
  specialize (IH g1 Hh1 Hm1).
  by destruct (analyze_files announce rest g1) as [g2 out2].
Qed.

Lemma main_state files :
  (main files).1
  = (print_call_graph
       (analyze_files "Analyzing implementation: "
          (filter (fun f => has_suffix ".m" f = true) files)
          (analyze_files "Analyzing header: "
             (filter (fun f => has_suffix ".h" f = true) files) init).1).1).1.
Proof.
  unfold main.
  destruct (analyze_files "Analyzing header: " _ init) as [g1 out1].
  cbv beta iota zeta delta [fst snd].
  destruct (analyze_files "Analyzing implementation: " _ g1) as [g2 out2].
  by destruct (print_call_graph g2).
Qed.

(** X3.  At the end of every run no recorded superclass is the empty
    name, every class of the method table has at least one declared
    method, and no declared method has the empty name. *)
Theorem run_keeps_tables_well_formed files :
  good_hierarchy (main files).1 ∧ good_methods (main files).1.
Proof.
  rewrite main_state, print_call_graph_unfold. simpl.
  assert (good_hierarchy init ∧ good_methods init) as [Hh Hm].
  { split; apply map_Forall_empty. }
  destruct (analyze_files_good "Analyzing header: "
              (filter (fun f => has_suffix ".h" f = true) files) init Hh Hm)
    as [Hh1 Hm1].
  by apply analyze_files_good.
Qed.

Lemma analyze_file_quiet f g :
  plain_file f → good_hierarchy g → (analyze_file f g).2 = [].
Proof.
  intros [Hstem [content Hread]] Hg. unfold analyze_file. rewrite Hread.
  destruct (String.eqb (suffix f) ".h"); [done|].
  destruct (String.eqb (suffix f) ".m"); [|done].
  pose proof (parse_implementation_no_raise content (stem f) g Hstem Hg) as Hr.
  destruct (parse_implementation content (stem f) g) as [g' raised].
  simpl in *. by subst raised.
Qed.

Lemma analyze_files_quiet announce files g :
  Forall plain_file files → good_hierarchy g → good_methods g →
  (analyze_files announce files g).2
  = (fun f => announce +:+ path_str f) <$> files.
Proof.
  intros Hfiles. revert g.
  induction Hfiles as [|f rest Hf Hrest IH]; intros g Hh Hm; simpl; [done|].
  pose proof (analyze_file_quiet f g Hf Hh) as Hq.
  destruct (analyze_file_good f g Hh Hm) as [Hh1 Hm1].
  destruct (analyze_file f g) as [g1 out1]. simpl in *. subst out1.
  specialize (IH g1 Hh1 Hm1).
  destruct (analyze_files announce rest g1) as [g2 out2]. simpl in *.
  by rewrite IH.
Qed.

Lemma Forall_filter_keep {A} (P Q : A → Prop) `{!∀ x, Decision (Q x)}
    (l : list A) :
  Forall P l → Forall P (filter Q l).
Proof.
  rewrite !Forall_forall. intros Hall x [_ Hx]%list_elem_of_filter. auto.
Qed.

Lemma main_output files :
  (main files).2
  = [ "Found " +:+ pretty (length files) +:+ " source files to analyze" ]
    ++ (analyze_files "Analyzing header: "
          (filter (fun f => has_suffix ".h" f = true) files) init).2
    ++ (analyze_files "Analyzing implementation: "
          (filter (fun f => has_suffix ".m" f = true) files)
          (analyze_files "Analyzing header: "
             (filter (fun f => has_suffix ".h" f = true) files) init).1).2
    ++ (print_call_graph
          (analyze_files "Analyzing implementation: "
             (filter (fun f => has_suffix ".m" f = true) files)
             (analyze_files "Analyzing header: "
                (filter (fun f => has_suffix ".h" f = true) files) init).1).1).2.
Proof.
  unfold main.
  destruct (analyze_files "Analyzing header: " _ init) as [g1 out1].
  cbv beta iota zeta delta [fst snd].
  destruct (analyze_files "Analyzing implementation: " _ g1) as [g2 out2].
  by destruct (print_call_graph g2).
Qed.

(** X4.  When every source file can be read and has a non-empty stem,
    a run prints no error line: its output is the count of the files, one
    announcement per header file, one per implementation file, and the
    report. *)
Theorem run_prints_no_error files :
  Forall plain_file files →
  (main files).2
  = [ "Found " +:+ pretty (length files) +:+ " source files to analyze" ]
    ++ ((fun f => "Analyzing header: " +:+ path_str f)
          <$> filter (fun f => has_suffix ".h" f = true) files)
    ++ ((fun f => "Analyzing implementation: " +:+ path_str f)
          <$> filter (fun f => has_suffix ".m" f = true) files)
    ++ (print_call_graph (main files).1).2.
Proof.
  intros Hfiles. rewrite main_state, print_call_graph_again, main_output.
  assert (good_hierarchy init ∧ good_methods init) as [Hh Hm].
  { split; apply map_Forall_empty. }
  destruct (analyze_files_good "Analyzing header: "
              (filter (fun f => has_suffix ".h" f = true) files) init Hh Hm)
    as [Hh1 Hm1].
  rewrite (analyze_files_quiet "Analyzing header: " _ init
             (Forall_filter_keep _ (fun f => has_suffix ".h" f = true) _ Hfiles)
             Hh Hm).
  by rewrite (analyze_files_quiet "Analyzing implementation: " _ _
                (Forall_filter_keep _ (fun f => has_suffix ".m" f = true) _ Hfiles)
                Hh1 Hm1).
Qed.

Lemma run_prints_no_error_witness :
  (main (Scenario.dog_files Scenario.dog_m_tight)).2
  = [ "Found " +:+ pretty (length (Scenario.dog_files Scenario.dog_m_tight))
        +:+ " source files to analyze" ]
    ++ ((fun f => "Analyzing header: " +:+ path_str f)
          <$> filter (fun f => has_suffix ".h" f = true)
                (Scenario.dog_files Scenario.dog_m_tight))
    ++ ((fun f => "Analyzing implementation: " +:+ path_str f)
          <$> filter (fun f => has_suffix ".m" f = true)
                (Scenario.dog_files Scenario.dog_m_tight))
    ++ (print_call_graph (main (Scenario.dog_files Scenario.dog_m_tight)).1).2.
Proof.
  apply run_prints_no_error.
  repeat constructor; try (vm_compute; discriminate); by eexists.
Defined.

End runs.

(** ** Call sites and their edges *)

Section call_sites.

Import Re CallGraphGenerator Report.

Lemma process_call_caller g cur cm cmt call_match c :
  process_call g cur cm cmt call_match = Emit c →
  MethodCall.caller_class c = cur
  ∧ MethodCall.caller_method c
    = PyStr.replace "." " "
        (fmt_opt cmt +:+ " [" +:+ cur +:+ " " +:+ fmt_opt cm +:+ "]").
Proof.
  unfold process_call. destruct (negb _); [|done].
  destruct (if has_class_prefix _ then _ else _); [|done].
  by intros [= <-].
Qed.

Lemma call_edges_one_each g cur cm cmt calls :
  cur ≠ EmptyString → good_hierarchy g →
  Forall (fun m => group m 1 ≠ EmptyString ∧ group m 2 ≠ EmptyString) calls →
  Forall2 (fun call c =>
             MethodCall.caller_class c = cur
             ∧ MethodCall.callee_class c = resolve_receiver g cur (group call 1))
          calls (call_edges g cur cm cmt calls).
Proof.
  intros Hcur Hg. induction 1 as [|m rest [H1 H2] Hrest IH]; simpl;
    [constructor|].
  destruct (process_call_emits g cur cm cmt m Hcur Hg H1 H2) as (c & Hc).
  rewrite Hc. constructor; [|done]. split.
  - by apply process_call_caller in Hc as [? _].
  - by apply callee_kind_rule in Hc as [? _].
Qed.

(** X5.  Under an active method, that is after a line that matched a
    method header, a line that matches no header yields exactly one edge
    per call site found in it, in the same order, provided the active
    class is not the empty name and no recorded superclass is: the edge's
    caller class is the active class and its callee class the resolved
    receiver.  No call site is skipped and none raises. *)
Theorem one_edge_per_call_site g cur header m line :
  cur ≠ EmptyString → good_hierarchy g →
  search Pat.method_pattern header = Some m →
  search Pat.method_pattern line = None →
  ∃ edges,
    scan_line cur (scan_line cur no_context header g).1.1 line g
    = ((scan_line cur no_context header g).1.1,
       set_call_graph (call_graph g ++ edges) g, false)
    ∧ Forall2 (fun call c =>
                 MethodCall.caller_class c = cur
                 ∧ MethodCall.callee_class c
                   = resolve_receiver g cur (group call 1))
              (finditer Pat.method_calls_pattern line) edges.
Proof.
  intros Hcur Hg Hh Hl.
  rewrite (scan_line_header cur no_context header g m Hh). simpl.
  set (ctx := Context (Some (group m 3)) (Some (group m 1))).
  exists (line_edges g cur ctx line). split.
  - pose proof (scan_line_context cur ctx line g) as Hc. rewrite Hl in Hc.
    pose proof (scan_line_adds cur ctx line g) as Ha.
    pose proof (scan_line_other cur ctx line g) as Ho.
    destruct (scan_line_no_raise cur ctx line g Hcur Hg) as [Hr _].
    destruct (scan_line cur ctx line g) as [[ctx' g'] raised]. simpl in *.
    by rewrite Hc, Hr, Ho, Ha.
  - rewrite line_edges_cases, Hl. unfold ctx. simpl.
    pose proof (search_group Pat.method_pattern 3 header m eq_refl Hh) as H3.
    destruct (group m 3) as [|a rest]; [done|]. simpl.
    apply call_edges_one_each; [done..|apply call_sites_nonempty].
Qed.

Lemma one_edge_per_call_site_witness :
  ∃ edges,
    scan_line "Dog" (scan_line "Dog" no_context "-(void)bark {" init).1.1
      "  [self growl]; [Animal sharedInstance];" init
    = ((scan_line "Dog" no_context "-(void)bark {" init).1.1,
       set_call_graph (call_graph init ++ edges) init, false)
    ∧ Forall2 (fun call c =>
                 MethodCall.caller_class c = "Dog"
                 ∧ MethodCall.callee_class c
                   = resolve_receiver init "Dog" (group call 1))
              (finditer Pat.method_calls_pattern
                 "  [self growl]; [Animal sharedInstance];") edges.
Proof.
  apply (one_edge_per_call_site init "Dog" "-(void)bark {"
           (ReMatch 0 13 {[ 1 := "-"; 2 := "void"; 3 := "bark" ]})).
  - vm_compute. discriminate.
  - unfold good_hierarchy. vm_compute. intros i x H. discriminate.
  - vm_compute. reflexivity.
  - vm_compute. reflexivity.
Defined.

(** The edges of a unit come from contexts set by header lines of that
    unit. *)
Lemma lines_edges_from_headers (P : MethodCall.t → Prop) g cur
    (unit_lines : list string) :
  (∀ line m call_match c,
     line ∈ unit_lines → search Pat.method_pattern line = Some m →
     process_call g cur (Some (group m 3)) (Some (group m 1)) call_match = Emit c →
     P c) →
  ∀ lines ctx,
    (∀ line, line ∈ lines → line ∈ unit_lines) →
    (current_method ctx = None
     ∨ ∃ line m, line ∈ unit_lines ∧ search Pat.method_pattern line = Some m
                 ∧ ctx = Context (Some (group m 3)) (Some (group m 1))) →
    Forall (Forall P) (lines_edges g cur ctx lines).
Proof.
  intros Hemit lines.
  induction lines as [|line rest IH]; intros ctx Hsub Hctx; simpl;
    [constructor|].
  pose proof (scan_line_context cur ctx line g) as Hc.
  destruct (scan_line cur ctx line g) as [[ctx' g'] raised]. simpl in Hc.
  constructor.
  - rewrite line_edges_cases.
    destruct (search Pat.method_pattern line); [constructor|].
    destruct (truthy (current_method ctx)) eqn:Ht; [|constructor].
    destruct Hctx as [Hn|(hl & hm & Hin & Hs & ->)]; [by rewrite Hn in Ht|].
    simpl. generalize (finditer Pat.method_calls_pattern line). intros calls.
    induction calls as [|cm rest' IH']; simpl; [constructor|].
    destruct (process_call _ _ _ _ cm) eqn:E; [|done|constructor].
    constructor; [|done]. by eapply (Hemit hl hm).
  - destruct raised; [constructor|]. apply IH.
    + intros l Hl. apply Hsub. apply elem_of_cons. auto.
    + subst ctx'. destruct (search Pat.method_pattern line) as [m|] eqn:E;
        [|done].
      right. exists line, m. split; [|done]. apply Hsub, elem_of_cons. auto.
Qed.

(** X6.  Every edge that a definition unit adds is attributed to a
    method whose header is a line of that unit: its caller class is the
    active class of the unit, and its caller text is made of the marker
    and the name captured from that header line, with dots replaced by
    blanks. *)
Theorem edges_attributed_to_unit_headers content name g c :
  c ∈ drop (length (call_graph g))
        (call_graph (parse_implementation content name g).1) →
  let cur :=
    match search Pat.impl_pattern content with
    | Some impl_match => group impl_match 1
    | None => name
    end in
  MethodCall.caller_class c = cur
  ∧ ∃ line m,
      line ∈ PyStr.split "010" content
      ∧ search Pat.method_pattern line = Some m
      ∧ MethodCall.caller_method c
        = PyStr.replace "." " "
            (group m 1 +:+ " [" +:+ cur +:+ " " +:+ group m 3 +:+ "]").
Proof.
  rewrite parse_implementation_adds, drop_app_length.
  intros (es & Hes & Hc)%elem_of_concat cur. fold cur in Hes.
  eapply Forall_forall in Hes;
    [|eapply (lines_edges_from_headers
                (fun c => MethodCall.caller_class c = cur
                          ∧ ∃ line m,
                              line ∈ PyStr.split "010" content
                              ∧ search Pat.method_pattern line = Some m
                              ∧ MethodCall.caller_method c
                                = PyStr.replace "." " "
                                    (group m 1 +:+ " [" +:+ cur +:+ " "
                                       +:+ group m 3 +:+ "]"))
                _ cur (PyStr.split "010" content))].
  - eapply Forall_forall in Hes; eauto.
  - intros line m call_match c' Hin Hs [Hcls Hm]%process_call_caller.
    split; [done|]. exists line, m. by rewrite Hm.
  - done.
  - by left.
Qed.

Lemma edges_attributed_to_unit_headers_witness :
  MethodCall.caller_class Scenario.super_edge = "C"
  ∧ ∃ line m,
      line ∈ PyStr.split "010" Scenario.super_m
      ∧ search Pat.method_pattern line = Some m
      ∧ MethodCall.caller_method Scenario.super_edge
        = PyStr.replace "." " "
            (group m 1 +:+ " [" +:+ "C" +:+ " " +:+ group m 3 +:+ "]").
Proof.
  apply (edges_attributed_to_unit_headers Scenario.super_m "C" init
           Scenario.super_edge).
  vm_compute. apply elem_of_cons. left. reflexivity.
Defined.

End call_sites.

(** ** Every edge of a run *)

Section run_edges.

Import Re CallGraphGenerator Report.

Lemma files_edges_forall (P : MethodCall.t → Prop) :
  (∀ content name g c,
     c ∈ call_graph (parse_implementation content name (set_call_graph [] g)).1 →
     P c) →
  ∀ files g, Forall (Forall P) (files_edges files g).
Proof.
  intros Himpl files.
  induction files as [|f rest IH]; intros g; simpl; constructor; [|apply IH].
  apply Forall_forall. intros c. unfold analyze_file.
  destruct (read_text f) as [content|msg]; [|by intros ?%elem_of_nil].
  destruct (String.eqb (suffix f) ".h").
  { simpl. rewrite parse_interface_graph. by intros ?%elem_of_nil. }
  destruct (String.eqb (suffix f) ".m"); [|by intros ?%elem_of_nil].
  pose proof (Himpl content (stem f) g c) as H.
  by destruct (parse_implementation content (stem f) (set_call_graph [] g)).
Qed.

Lemma main_edges (P : MethodCall.t → Prop) :
  (∀ i c, P c → P (MethodCall.set_invocation_index i c)) →
  (∀ content name g c,
     c ∈ call_graph (parse_implementation content name (set_call_graph [] g)).1 →
     P c) →
  ∀ files c, c ∈ call_graph (main files).1 → P c.
Proof.
  intros Hidx Himpl files c.
  rewrite main_state, print_call_graph_unfold. simpl.
  rewrite analyze_files_adds, analyze_files_headers by apply filter_all.
  simpl. intros (i & Hc)%list_elem_of_lookup.
  apply number_from_lookup in Hc as (c0 & Hc0 & ->). apply Hidx.
  assert (c0 ∈ concat (files_edges
                         (filter (fun f => has_suffix ".m" f = true) files)
                         (analyze_files "Analyzing header: "
                            (filter (fun f => has_suffix ".h" f = true) files)
                            init).1)) as Hin.
  { apply list_elem_of_lookup. eauto. }
  apply elem_of_concat in Hin as (es & Hes & Hin).
  eapply Forall_forall in Hes; [|by apply (files_edges_forall P Himpl)].
  eapply Forall_forall in Hes; eauto.
Qed.

(** X7.  In every run, both kind fields of every recorded call are
    [-], whatever the markers of the headers and the classification of
    the callees: each caller signature and each callee signature of the
    report opens with [-[]. *)
Theorem run_renders_every_kind_as_minus files c :
  c ∈ call_graph (main files).1 →
  MethodCall.caller_type c = "-" ∧ MethodCall.callee_type c = "-"
  ∧ String.prefix "-[" (MethodCall.get_caller_signature c) = true
  ∧ String.prefix "-[" (MethodCall.get_callee_signature c) = true.
Proof.
  apply (main_edges
           (fun c => MethodCall.caller_type c = "-" ∧ MethodCall.callee_type c = "-"
                     ∧ String.prefix "-[" (MethodCall.get_caller_signature c) = true
                     ∧ String.prefix "-[" (MethodCall.get_callee_signature c) = true)).
  - intros i c0 H. exact H.
  - intros content name g c0 Hc.
    destruct (edges_types content name (set_call_graph [] g) c0) as [H1 H2];
      [exact Hc|].
    assert (∀ x, String.prefix "-[" ("-" +:+ "[" +:+ x) = true) as Hp
      by (by intros [|a x]).
    unfold MethodCall.get_caller_signature, MethodCall.get_callee_signature.
    rewrite H1, H2. repeat split; apply Hp.
Qed.

Lemma run_renders_every_kind_as_minus_witness :
  MethodCall.caller_type Scenario.numbered_edge = "-"
  ∧ MethodCall.callee_type Scenario.numbered_edge = "-"
  ∧ String.prefix "-[" (MethodCall.get_caller_signature Scenario.numbered_edge)
    = true
  ∧ String.prefix "-[" (MethodCall.get_callee_signature Scenario.numbered_edge)
    = true.
Proof.
  apply (run_renders_every_kind_as_minus
           (Scenario.dog_files Scenario.dog_m_tight)).
  vm_compute. apply elem_of_cons. right. apply elem_of_cons. left. reflexivity.
Defined.

End run_edges.

(** ** Declaration units, one after another *)

Section interface_units.

Import Re CallGraphGenerator Report.

Lemma generator_eq (g1 g2 : CallGraphGenerator.t) :
  call_graph g1 = call_graph g2 → class_methods g1 = class_methods g2 →
  class_hierarchy g1 = class_hierarchy g2 → current_class g1 = current_class g2 →
  g1 = g2.
Proof. destruct g1, g2. simpl. by intros -> -> -> ->. Qed.

Lemma add_methods_table class_name (l : list re_match) g :
  class_methods (foldl (fun g m => add_method class_name (group m 3) g) g l)
  = match l with
    | [] => class_methods g
    | _ :: _ =>
        <[class_name := list_to_set ((fun m => group m 3) <$> l)
                        ∪ default ∅ (class_methods g !! class_name)]>
          (class_methods g)
    end.
Proof.
  revert g. induction l as [|m l IH]; intros g; [done|].
  simpl foldl. rewrite IH. destruct l as [|m' l]; simpl.
  - by rewrite (right_id_L ∅ (∪)).
  - rewrite lookup_insert_eq, insert_insert_eq. simpl. f_equal.
    rewrite (assoc_L (∪)). f_equal. apply (comm_L (∪)).
Qed.

Lemma parse_interface_methods content name g :
  class_methods (parse_interface content name g)
  = match declared_names content with
    | [] => class_methods g
    | _ :: _ =>
        <[name := list_to_set (declared_names content)
                  ∪ default ∅ (class_methods g !! name)]> (class_methods g)
    end.
Proof.
  unfold parse_interface, declared_names. rewrite add_methods_table.
  destruct (search Pat.interface_pattern content);
    by destruct (finditer Pat.interface_method_pattern content).
Qed.

Lemma parse_interface_hierarchy content name g :
  class_hierarchy (parse_interface content name g)
  = match declared_superclass content with
    | Some sup => <[name := sup]> (class_hierarchy g)
    | None => class_hierarchy g
    end.
Proof.
  unfold parse_interface, declared_superclass.
  match goal with |- context [foldl ?f ?g1 ?l] =>
    destruct (add_methods_fold name l g1) as (_ & H2 & _)
  end.
  cbv zeta in H2. rewrite H2.
  by destruct (search Pat.interface_pattern content).
Qed.

Lemma parse_interface_current content name g :
  current_class (parse_interface content name g) = current_class g.
Proof.
  unfold parse_interface. rewrite add_methods_current.
  by destruct (search Pat.interface_pattern content).
Qed.

(** X8.  Reading the same declaration unit a second time under the
    same name changes nothing. *)
Theorem parse_interface_twice content name g :
  parse_interface content name (parse_interface content name g)
  = parse_interface content name g.
Proof.
  apply generator_eq.
  - by rewrite !parse_interface_graph.
  - rewrite (parse_interface_methods content name (parse_interface _ _ _)).
    rewrite !parse_interface_methods.
    destruct (declared_names content) as [|x l]; [done|].
    rewrite lookup_insert_eq, insert_insert_eq. simpl. f_equal.
    rewrite (assoc_L (∪)). f_equal. apply (idemp_L (∪)).
  - rewrite (parse_interface_hierarchy content name (parse_interface _ _ _)).
    rewrite !parse_interface_hierarchy.
    destruct (declared_superclass content); [|done].
    by rewrite insert_insert_eq.
  - by rewrite !parse_interface_current.
Qed.

(** X9.  Declaration units read under different names do not
    interfere: reading them in either order gives the same state. *)
Theorem parse_interface_order content1 name1 content2 name2 g :
  name1 ≠ name2 →
  parse_interface content1 name1 (parse_interface content2 name2 g)
  = parse_interface content2 name2 (parse_interface content1 name1 g).
Proof.
  intros Hne. apply generator_eq.
  - by rewrite !parse_interface_graph.
  - rewrite (parse_interface_methods content1 name1 (parse_interface _ _ _)).
    rewrite (parse_interface_methods content2 name2 (parse_interface _ _ _)).
    rewrite !parse_interface_methods.
    destruct (declared_names content1) as [|x1 l1],
             (declared_names content2) as [|x2 l2]; try done.
    rewrite !lookup_insert_ne by done. by apply insert_insert_ne.
  - rewrite (parse_interface_hierarchy content1 name1 (parse_interface _ _ _)).
    rewrite (parse_interface_hierarchy content2 name2 (parse_interface _ _ _)).
    rewrite !parse_interface_hierarchy.
    destruct (declared_superclass content1), (declared_superclass content2);
      try done.
    by apply insert_insert_ne.
  - by rewrite !parse_interface_current.
Qed.

Lemma parse_interface_order_witness :
  parse_interface Scenario.dog_h "Dog"
    (parse_interface Scenario.other_h "Z" init)
  = parse_interface Scenario.other_h "Z"
      (parse_interface Scenario.dog_h "Dog" init).
Proof. apply parse_interface_order. vm_compute. discriminate. Defined.

(** X10.  Two declaration units read under the same name: the
    superclass of the later unit replaces that of the earlier one, a later
    unit without class header keeps the earlier superclass, and the
    methods of both are in the table. *)
Theorem parse_interface_same_name content1 content2 name g :
  let g2 := parse_interface content2 name (parse_interface content1 name g) in
  class_hierarchy g2 !! name
  = match declared_superclass content2 with
    | Some sup => Some sup
    | None =>
        match declared_superclass content1 with
        | Some sup => Some sup
        | None => class_hierarchy g !! name
        end
    end
  ∧ default ∅ (class_methods g2 !! name)
    = default ∅ (class_methods g !! name)
      ∪ list_to_set (declared_names content1)
      ∪ list_to_set (declared_names content2).
Proof.
  intros g2. subst g2. split.
  - rewrite (parse_interface_hierarchy content2 name (parse_interface _ _ _)).
    rewrite parse_interface_hierarchy.
    destruct (declared_superclass content2); [by rewrite lookup_insert_eq|].
    destruct (declared_superclass content1); [by rewrite lookup_insert_eq|done].
  - rewrite (parse_interface_methods content2 name (parse_interface _ _ _)).
    rewrite parse_interface_methods.
    destruct (declared_names content2) as [|x2 l2],
             (declared_names content1) as [|x1 l1];
      rewrite ?lookup_insert_eq; simpl; rewrite ?(right_id_L ∅ (∪)).
    + done.
    + apply (comm_L (∪)).
    + apply (comm_L (∪)).
    + rewrite (comm_L (∪) ({[x1]} ∪ list_to_set l1)). apply (comm_L (∪)).
Qed.

End interface_units.

(** ** Canonical names are fixed points *)

Section canonical_names.

Import PyStr.

Lemma lstrip_idem s : lstrip (lstrip s) = lstrip s.
Proof.
  induction s as [|a s IH]; [done|]. simpl.
  destruct (PyChar.isspace a) eqn:Ha; [done|]. simpl. by rewrite Ha.
Qed.

Lemma rstrip_idem s : rstrip (rstrip s) = rstrip s.
Proof.
  induction s as [|a s IH]; [done|]. simpl.
  destruct (is_empty (rstrip s) && PyChar.isspace a) eqn:E; [done|].
  simpl. by rewrite IH, E.
Qed.

Lemma strip_idem s : strip (strip s) = strip s.
Proof.
  unfold strip. by rewrite (lstrip_rstrip (lstrip s)), lstrip_idem, rstrip_idem.
Qed.

Lemma lstrip_head a r s : lstrip s = String a r → PyChar.isspace a = false.
Proof.
  induction s as [|b s IH]; [done|]. simpl.
  destruct (PyChar.isspace b) eqn:Hb; [done|]. by intros [= <- _].
Qed.

Lemma strip_head a r s : strip s = String a r → PyChar.isspace a = false.
Proof.
  rewrite strip_alt. apply lstrip_head.
Qed.

Lemma rstrip_closed s c :
  PyChar.isspace c = false →
  rstrip (s +:+ String c EmptyString) = s +:+ String c EmptyString.
Proof.
  intros Hc. induction s as [|a s IH]; simpl.
  - by rewrite Hc.
  - rewrite IH. by destruct s.
Qed.

Lemma contains_closed sep s : contains sep (s +:+ String sep EmptyString) = true.
Proof.
  induction s as [|a s IH]; simpl.
  - by rewrite Ascii.eqb_refl.
  - by rewrite IH, orb_true_r.
Qed.

Lemma split_segments sep s :
  Forall (fun p => contains sep p = false) (split sep s).
Proof.
  induction s as [|a s IH]; simpl; [by constructor|].
  destruct (Ascii.eqb a sep) eqn:Ha; [by constructor|].
  destruct (split sep s) as [|h t]; [by constructor; [simpl; rewrite Ha|]|].
  apply Forall_cons in IH as [Hh Ht]. constructor; [|done].
  simpl. by rewrite Ha, Hh.
Qed.

Lemma split_app_sep sep p rest :
  contains sep p = false →
  split sep (p +:+ String sep rest) = p :: split sep rest.
Proof.
  induction p as [|a p IH]; simpl.
  - intros _. by rewrite Ascii.eqb_refl.
  - intros [Ha Hp]%orb_false_iff. by rewrite Ha, (IH Hp).
Qed.

Lemma append_assoc (s1 s2 s3 : string) :
  (s1 +:+ s2) +:+ s3 = s1 +:+ (s2 +:+ s3).
Proof.
  induction s1 as [|a s1 IH]; [done|].
  change (String a ((s1 +:+ s2) +:+ s3) = String a (s1 +:+ (s2 +:+ s3))).
  by rewrite IH.
Qed.

Lemma split_join_closed sep p ps :
  Forall (fun q => contains sep q = false) (p :: ps) →
  split sep (join (String sep EmptyString) (p :: ps) +:+ String sep EmptyString)
  = (p :: ps) ++ [EmptyString].
Proof.
  revert p. induction ps as [|q ps IH]; intros p [Hp Hps]%Forall_cons.
  - simpl join. by rewrite split_app_sep.
  - change (join (String sep EmptyString) (p :: q :: ps))
      with (p +:+ String sep EmptyString +:+ join (String sep EmptyString) (q :: ps)).
    rewrite append_assoc.
    change ((String sep EmptyString +:+ join (String sep EmptyString) (q :: ps))
              +:+ String sep EmptyString)
      with (String sep (join (String sep EmptyString) (q :: ps)
                          +:+ String sep EmptyString)).
    rewrite split_app_sep by done. by rewrite (IH q Hps).
Qed.

Lemma canonical_parts s :
  let parts :=
    filter (fun p => negb (is_empty p) = true) (map strip (split ":" s)) in
  Forall (fun p => strip p = p ∧ p ≠ EmptyString ∧ contains ":" p = false) parts.
Proof.
  intros parts. apply Forall_forall. intros p [Hne Hin]%list_elem_of_filter.
  apply list_elem_of_In, in_map_iff in Hin as (q & <- & Hq).
  split; [apply strip_idem|]. split.
  - intros E. by rewrite E in Hne.
  - rewrite contains_strip by reflexivity.
    pose proof (split_segments ":" s) as Hall.
    rewrite Forall_forall in Hall. by apply Hall, list_elem_of_In.
Qed.

Lemma canonical_fixed (parts : list string) :
  Forall (fun p => strip p = p ∧ p ≠ EmptyString ∧ contains ":" p = false) parts →
  strip (join ":" parts +:+ ":") = join ":" parts +:+ ":"
  ∧ MethodCall.format_method_name (join ":" parts +:+ ":")
    = join ":" parts +:+ ":".
Proof.
  intros Hparts.
  destruct parts as [|p ps]; [by split|].
  assert (strip (join ":" (p :: ps) +:+ ":") = join ":" (p :: ps) +:+ ":")
    as Hstrip.
  { unfold strip.
    assert (lstrip (join ":" (p :: ps) +:+ ":") = join ":" (p :: ps) +:+ ":")
      as ->; [|by apply rstrip_closed].
    apply Forall_cons in Hparts as [(Hp & Hne & _) _].
    destruct p as [|a r]; [done|].
    pose proof (strip_head a r _ Hp) as Ha.
    destruct ps as [|q ps]; by apply lstrip_nonspace. }
  split; [done|].
  unfold MethodCall.format_method_name. rewrite Hstrip, contains_closed.
  rewrite (split_join_closed ":" p ps)
    by (eapply Forall_impl; [exact Hparts|by intros q (_ & _ & ?)]).
  rewrite map_app, filter_app. simpl (map strip [EmptyString]).
  assert (map strip (p :: ps) = p :: ps) as ->.
  { clear Hstrip. induction Hparts as [|q qs (Hq & _) _ IH]; [done|].
    simpl. by rewrite Hq, IH. }
  rewrite filter_nonempty_id.
  - change (filter _ [EmptyString]) with (@nil string). by rewrite app_nil_r.
  - clear Hstrip. induction Hparts as [|q qs (_ & Hq & _) _ IH]; [done|].
    simpl. rewrite IH. by destruct q.
Qed.

(** X11.  Canonical names are fixed points: formatting the result of
    [format_method_name] again gives the same text, and a canonical name
    has no blank at either end. *)
Theorem format_method_name_twice s :
  MethodCall.format_method_name (MethodCall.format_method_name s)
  = MethodCall.format_method_name s
  ∧ strip (MethodCall.format_method_name s) = MethodCall.format_method_name s.
Proof.
  assert (∀ R, R = MethodCall.format_method_name s →
               MethodCall.format_method_name R = R ∧ strip R = R) as Hfix;
    [|by apply Hfix].
  intros R HR. unfold MethodCall.format_method_name in HR.
  destruct (contains ":" (strip s)) eqn:E; subst R.
  - destruct (canonical_fixed _ (canonical_parts (strip s))) as [H1 H2].
    split; [exact H2|exact H1].
  - split; [|apply strip_idem].
    unfold MethodCall.format_method_name. by rewrite strip_idem, E.
Qed.

End canonical_names.

(** ** Line feeds *)

Section line_feeds.

Import PyStr.

Lemma newlines_app s1 s2 : newlines (s1 +:+ s2) = newlines s1 + newlines s2.
Proof.
  induction s1 as [|a s1 IH]; [done|].
  change (newlines (String a (s1 +:+ s2)) = newlines (String a s1) + newlines s2).
  simpl. rewrite IH. lia.
Qed.

Lemma newlines_lstrip s : newlines (lstrip s) ≤ newlines s.
Proof.
  induction s as [|a s IH]; [done|]. simpl.
  destruct (PyChar.isspace a); simpl; lia.
Qed.

Lemma newlines_rstrip s : newlines (rstrip s) ≤ newlines s.
Proof.
  induction s as [|a s IH]; [done|]. simpl.
  destruct (is_empty (rstrip s) && PyChar.isspace a); simpl; lia.
Qed.

Lemma newlines_strip s : newlines (strip s) ≤ newlines s.
Proof.
  unfold strip. etrans; [apply newlines_rstrip|apply newlines_lstrip].
Qed.

Lemma newlines_split sep s :
  Ascii.eqb sep "010" = false →
  sum_list_with newlines (split sep s) = newlines s.
Proof.
  intros Hsep. induction s as [|a s IH]; [done|]. simpl.
  destruct (Ascii.eqb a sep) eqn:Ha.
  - apply Ascii.eqb_eq in Ha as ->. rewrite Hsep. simpl. by rewrite IH.
  - destruct (split_cons sep s) as (h & t & E). rewrite E in *. simpl in *. lia.
Qed.

Lemma newlines_join sep ps :
  newlines sep = 0 → newlines (join sep ps) = sum_list_with newlines ps.
Proof.
  intros Hsep. induction ps as [|p ps IH]; [done|].
  destruct ps as [|q ps]; [simpl; lia|].
  change (join sep (p :: q :: ps)) with (p +:+ sep +:+ join sep (q :: ps)).
  rewrite !newlines_app, IH, Hsep. simpl. lia.
Qed.

Lemma newlines_parts (ps : list string) :
  sum_list_with newlines
    (filter (fun p => negb (is_empty p) = true) (map strip ps))
  ≤ sum_list_with newlines ps.
Proof.
  induction ps as [|p ps IH]; [done|]. simpl.
  rewrite filter_cons. pose proof (newlines_strip p).
  destruct (decide _); simpl; lia.
Qed.

Lemma newlines_format_method_name s :
  newlines (MethodCall.format_method_name s) ≤ newlines s.
Proof.
  unfold MethodCall.format_method_name.
  destruct (contains ":" (strip s)); [|apply newlines_strip].
  rewrite newlines_app, newlines_join by done.
  etrans; [|apply newlines_strip].
  rewrite <- (newlines_split ":" (strip s)) by done.
  pose proof (newlines_parts (split ":" (strip s))). simpl. lia.
Qed.

Lemma newlines_pretty_N_go x s : newlines (pretty_N_go x s) = newlines s.
Proof.
  revert s. induction (N.lt_wf_0 x) as [x _ IH]; intros s.
  assert (x = 0 ∨ 0 < x)%N as [->|?] by lia.
  - by rewrite pretty_N_go_0.
  - rewrite pretty_N_go_step by done. rewrite IH by (by apply N.div_lt).
    unfold pretty_N_char. by repeat case_match.
Qed.

Lemma newlines_pretty (n : nat) : newlines (pretty n) = 0.
Proof.
  unfold pretty, pretty_nat, pretty, pretty_N.
  destruct (decide _); [done|]. by rewrite newlines_pretty_N_go.
Qed.

End line_feeds.

(** ** Nothing is lost in the report *)

Section report_complete.

Import CallGraphGenerator Report.

Lemma sections_length (head : string → string) (line : MethodCall.t → string)
    (c : MethodCall.t) (l : list MethodCall.t) (ks : list string) :
  NoDup ks →
  length (concat ((fun k => head k :: (line <$> calls_by k (c :: l))) <$> ks))
  = length (concat ((fun k => head k :: (line <$> calls_by k l)) <$> ks))
    + (if decide (MethodCall.caller_class c ∈ ks) then 1 else 0).
Proof.
  induction 1 as [|k ks Hk Hks IH]; [done|].
  rewrite !fmap_cons. simpl. rewrite !length_app, !length_fmap, IH.
  unfold calls_by at 1. rewrite filter_cons. fold (calls_by k l).
  destruct (decide (MethodCall.caller_class c = k)) as [E|E];
    destruct (decide (MethodCall.caller_class c ∈ ks)) as [H1|H1];
    destruct (decide (MethodCall.caller_class c ∈ k :: ks)) as [H2|H2];
    simpl; try lia; exfalso.
  - apply Hk. by rewrite <- E.
  - apply Hk. by rewrite <- E.
  - apply H2, elem_of_cons. auto.
  - apply H2, elem_of_cons. auto.
  - apply elem_of_cons in H2 as [?|?]; done.
Qed.

Lemma sections_total (head : string → string) (line : MethodCall.t → string)
    (l : list MethodCall.t) (ks : list string) :
  NoDup ks →
  (∀ c, c ∈ l → MethodCall.caller_class c ∈ ks) →
  length (concat ((fun k => head k :: (line <$> calls_by k l)) <$> ks))
  = length ks + length l.
Proof.
  intros Hks. induction l as [|c l IH]; intros Hcover.
  - clear Hcover Hks. induction ks as [|k ks IH]; [done|].
    rewrite fmap_cons. simpl in *. rewrite IH. lia.
  - rewrite sections_length by done.
    rewrite IH by (intros c' Hc'; apply Hcover, elem_of_cons; auto).
    rewrite decide_True by (apply Hcover, elem_of_cons; auto).
    simpl. lia.
Qed.

Lemma group_calls_dom (l : list MethodCall.t) :
  dom (group_calls ∅ l) =@{gset string} list_to_set (MethodCall.caller_class <$> l).
Proof.
  apply set_eq. intros k.
  rewrite elem_of_dom, group_calls_keys, lookup_empty, elem_of_list_to_set,
    list_elem_of_fmap.
  split.
  - intros [[? [=]]|(c & Hc & <-)]. eauto.
  - intros (c & -> & Hc). right. eauto.
Qed.

Lemma number_from_lookup_Some n (l : list MethodCall.t) i c :
  l !! i = Some c →
  number_from n l !! i = Some (MethodCall.set_invocation_index (n + i) c).
Proof.
  revert n i. induction l as [|c0 l IH]; intros n i; [done|].
  destruct i as [|i]; simpl.
  - intros [= ->]. by rewrite Nat.add_0_r.
  - intros Hc. rewrite (IH (S n) i Hc). do 2 f_equal. lia.
Qed.

Lemma newlines_fact_line i c :
  one_line_call c → newlines (fact_line (MethodCall.set_invocation_index i c)) = 0.
Proof.
  intros (H1 & H2 & H3 & H4 & H5 & H6).
  pose proof (newlines_format_method_name (MethodCall.caller_method c)).
  pose proof (newlines_format_method_name (MethodCall.callee_method c)).
  unfold fact_line, MethodCall.get_callee_signature,
    MethodCall.get_caller_signature.
  cbn [MethodCall.set_invocation_index MethodCall.caller_class
       MethodCall.caller_method MethodCall.callee_class MethodCall.callee_method
       MethodCall.caller_type MethodCall.callee_type].
  rewrite !newlines_app, !newlines_pretty, H1, H2, H3, H5, H6. simpl. lia.
Qed.

Lemma newlines_stdout (out : list string) :
  newlines (stdout out) = length out + sum_list_with newlines out.
Proof.
  unfold stdout. induction out as [|x out IH]; [done|].
  assert (∀ p ps, PyStr.join "" (p :: ps) = p +:+ PyStr.join "" ps) as Hjoin.
  { intros p [|q ps]; [|done]. simpl.
    induction p as [|a p IHp]; [done|].
    change (String a p = String a (p +:+ "")). by rewrite <- IHp. }
  change (map _ (x :: out))
    with ((x +:+ String "010" "") :: map (fun l => l +:+ String "010" "") out).
  rewrite Hjoin, !newlines_app, IH. simpl. lia.
Qed.

Lemma newlines_sections (l : list MethodCall.t) (ks : list string) :
  Forall (fun k => newlines k = 0) ks →
  Forall (fun c => newlines (fact_line c) = 0) l →
  sum_list_with newlines
    (concat ((fun k => section_header k :: (fact_line <$> calls_by k l)) <$> ks))
  = length ks.
Proof.
  intros Hks Hl. induction Hks as [|k ks Hk Hks IH]; [done|].
  rewrite fmap_cons, concat_cons, sum_list_with_app, IH.
  assert (sum_list_with newlines (fact_line <$> calls_by k l) = 0) as Hf.
  { assert (Forall (fun c => newlines (fact_line c) = 0) (calls_by k l)) as Hc.
    { unfold calls_by. apply Forall_forall. intros c Hc%list_elem_of_filter.
      destruct Hc as [_ Hc]. by eapply Forall_forall in Hl. }
    induction Hc as [|c cs Hc Hcs IHc]; [done|].
    rewrite fmap_cons. cbn [sum_list_with]. by rewrite Hc, IHc. }
  cbn [sum_list_with]. rewrite Hf. unfold section_header.
  change (String "010" "# " +:+ k +:+ ":")
    with (String "010" ("# " +:+ k +:+ ":")).
  cbn [newlines]. rewrite !newlines_app, Hk. simpl. lia.
Qed.

Lemma newlines_none {A} (f : A → string) (l : list A) :
  Forall (fun x => newlines (f x) = 0) l → sum_list_with newlines (f <$> l) = 0.
Proof.
  induction 1 as [|x l Hx Hl IH]; [done|].
  rewrite fmap_cons. cbn [sum_list_with]. by rewrite Hx, IH.
Qed.

Lemma caller_classes_length g :
  length (merge_sort String.le
            (fst <$> map_to_list (group_calls ∅ (number_from 0 (call_graph g)))))
  = size (caller_classes g).
Proof.
  rewrite merge_sort_Permutation, length_fmap, length_map_to_list.
  rewrite <- (size_dom (D := gset string) (group_calls ∅ _)), group_calls_dom.
  by rewrite number_from_classes.
Qed.

Lemma print_call_graph_feeds g :
  one_line_texts g →
  sum_list_with newlines (print_call_graph g).2 = 4 + size (caller_classes g).
Proof.
  intros [Hh Hc]. rewrite print_call_graph_unfold. cbn [snd].
  rewrite !sum_list_with_app.
  rewrite (newlines_none hierarchy_line).
  2:{ rewrite merge_sort_Permutation.
      eapply Forall_impl; [exact Hh|]. intros [cls sup] [H1 H2].
      unfold hierarchy_line. simpl in *. by rewrite !newlines_app, H1, H2. }
  rewrite newlines_sections, caller_classes_length.
  - unfold statistics_lines. cbn [sum_list_with].
    rewrite !newlines_app, !newlines_pretty. simpl. lia.
  - apply Forall_forall. intros k Hk.
    rewrite merge_sort_Permutation in Hk.
    apply list_elem_of_fmap in Hk as ([k' v] & -> & Hk%elem_of_map_to_list).
    assert (is_Some (group_calls ∅ (number_from 0 (call_graph g)) !! k'))
      as Hs by eauto.
    apply group_calls_keys in Hs as [[? Hs]|(c & Hin & <-)];
      [by rewrite lookup_empty in Hs|].
    apply list_elem_of_lookup in Hin as (i & Hi).
    apply number_from_lookup in Hi as (c0 & Hc0 & ->).
    eapply Forall_forall in Hc; [|by eapply list_elem_of_lookup_2].
    by destruct Hc as (? & _).
  - apply Forall_forall. intros c Hin.
    apply list_elem_of_lookup in Hin as (i & Hi).
    apply number_from_lookup in Hi as (c0 & Hc0 & ->).
    apply newlines_fact_line.
    eapply Forall_forall in Hc; [done|by eapply list_elem_of_lookup_2].
Qed.

Lemma caller_class_listed g c :
  c ∈ number_from 0 (call_graph g) →
  MethodCall.caller_class c
  ∈ merge_sort String.le
      (fst <$> map_to_list (group_calls ∅ (number_from 0 (call_graph g)))).
Proof.
  intros Hc. rewrite merge_sort_Permutation.
  assert (is_Some (group_calls ∅ (number_from 0 (call_graph g))
                   !! MethodCall.caller_class c))
    as [v Hv] by (apply group_calls_keys; right; eauto).
  apply list_elem_of_fmap. exists (MethodCall.caller_class c, v).
  split; [done|]. by apply elem_of_map_to_list.
Qed.

Lemma print_call_graph_length g :
  length (print_call_graph g).2
  = 8 + size (class_hierarchy g) + size (caller_classes g)
    + length (call_graph g).
Proof.
  rewrite print_call_graph_unfold. cbn [snd].
  rewrite !length_app, length_fmap, sections_total.
  - rewrite caller_classes_length, merge_sort_Permutation, length_map_to_list,
      number_from_length.
    unfold statistics_lines. simpl. lia.
  - rewrite merge_sort_Permutation. apply NoDup_fst_map_to_list.
  - apply caller_class_listed.
Qed.

(** X12.  The report loses nothing and repeats nothing.  It is made of
    one item per call of [print]: one per entry of the hierarchy, one
    header per class that calls something, one fact per call of the
    graph, and eight fixed ones.  The fact of every call of the graph,
    with its position as index, is among the items printed, and so is
    the line of every entry of the hierarchy.  The four titles and each
    class header begin with a line feed of their own: when no text of
    the state holds a line feed, the bytes written hold twelve line
    feeds, one more per entry of the hierarchy, two more per class that
    calls something and one more per call. *)
Theorem report_is_complete g :
  length (print_call_graph g).2
  = 8 + size (class_hierarchy g) + size (caller_classes g)
    + length (call_graph g)
  ∧ (∀ i c, call_graph g !! i = Some c →
       fact_line (MethodCall.set_invocation_index i c) ∈ (print_call_graph g).2)
  ∧ (∀ cls sup, class_hierarchy g !! cls = Some sup →
       (cls +:+ " -> " +:+ sup) ∈ (print_call_graph g).2)
  ∧ (one_line_texts g →
       newlines (stdout (print_call_graph g).2)
       = 12 + size (class_hierarchy g) + 2 * size (caller_classes g)
         + length (call_graph g)).
Proof.
  split; [apply print_call_graph_length|].
  split; [|split].
  - intros i c Hc. rewrite print_call_graph_unfold. cbn [snd].
    set (numbered := number_from 0 (call_graph g)).
    assert (MethodCall.set_invocation_index i c ∈ numbered) as Hin.
    { apply list_elem_of_lookup. exists i.
      apply (number_from_lookup_Some 0 _ i c Hc). }
    rewrite !elem_of_app. right. right. right. left.
    apply elem_of_concat.
    exists (section_header (MethodCall.caller_class c)
            :: (fact_line <$> calls_by (MethodCall.caller_class c) numbered)).
    split.
    + apply list_elem_of_fmap. exists (MethodCall.caller_class c).
      split; [done|]. by apply (caller_class_listed g _ Hin).
    + apply elem_of_cons. right. apply list_elem_of_fmap.
      exists (MethodCall.set_invocation_index i c). split; [done|].
      by apply list_elem_of_filter.
  - intros cls sup Hh. rewrite print_call_graph_unfold. cbn [snd].
    rewrite !elem_of_app. right. left.
    apply list_elem_of_fmap. exists (cls, sup). split; [done|].
    rewrite merge_sort_Permutation. by apply elem_of_map_to_list.
  - intros Hone.
    rewrite newlines_stdout, print_call_graph_length,
      (print_call_graph_feeds g Hone).
    lia.
Qed.

Lemma report_is_complete_witness :
  fact_line (MethodCall.set_invocation_index 0 Scenario.super_edge)
  ∈ (print_call_graph (parse_implementation Scenario.super_m "C" init).1).2
  ∧ newlines
      (stdout (print_call_graph (parse_implementation Scenario.super_m "C" init).1).2)
    = 12 + 0 + 2 * 1 + 3.
Proof.
  destruct (report_is_complete (parse_implementation Scenario.super_m "C" init).1)
    as (_ & Hcalls & _ & Hlines).
  split.
  - apply Hcalls. vm_compute. reflexivity.
  - apply Hlines. split; vm_compute; repeat constructor.
Defined.

End report_complete.

(** ** The choice of the source files *)

Section source_files.
Import Sources.

Lemma path_leb_total p q : path_leb p q = true ∨ path_leb q p = true.
Proof.
  revert q. induction p as [|a p IH]; intros [|b q]; simpl; auto.
  rewrite (String.eqb_sym b a).
  destruct (String.eqb a b); [apply IH|apply String.leb_total].
Qed.

Local Instance path_le_total : Total path_le.
Proof. intros p q. apply path_leb_total. Qed.

Local Instance path_le_trans : Transitive path_le.
Proof.
  unfold path_le. intros p. induction p as [|a p IH]; intros [|b q] [|c r]; simpl;
    try done.
  destruct (String.eqb_spec a b) as [->|Hab];
    destruct (String.eqb_spec b c) as [->|Hbc]; try done.
  - apply IH.
  - rewrite (proj2 (String.eqb_neq _ _) Hab). done.
  - intros H1 H2. apply Is_true_true in H1, H2.
    destruct (String.eqb_spec a c) as [->|Hac].
    + destruct Hab. by apply (anti_symm String.le).
    + apply Is_true_true. by trans b.
Qed.

(** What the loop over the files has built after any number of rounds:
    every slot holds a file of that name among those seen, every file seen
    has its slot filled, and the slot of a name under which an [iOS] file
    was seen holds an [iOS] file. *)
Lemma keep_file_rounds (l : list path) :
  let r := foldl keep_file ∅ l in
  (∀ k f, r !! k = Some f → path_name f = k ∧ f ∈ l)
  ∧ (∀ f, f ∈ l → is_Some (r !! path_name f))
  ∧ (∀ f, f ∈ l → str_in "iOS" (path_str f) = true →
       ∃ f', r !! path_name f = Some f' ∧ str_in "iOS" (path_str f') = true).
Proof.
  induction l as [|x l IH] using rev_ind.
  { split; [|split].
    - intros k f Hk. change (foldl keep_file ∅ []) with (∅ : gmap string path) in Hk.
      by rewrite lookup_empty in Hk.
    - intros f Hf. by apply elem_of_nil in Hf.
    - intros f Hf. by apply elem_of_nil in Hf. }
  rewrite foldl_snoc. cbv zeta in IH.
  set (r := foldl keep_file ∅ l) in *.
  destruct IH as (IH1 & IH2 & IH3).
  unfold keep_file.
  destruct (str_in "iOS" (path_str x)
            || negb (bool_decide (is_Some (r !! path_name x)))) eqn:Hcond.
  - split; [|split].
    + intros k f Hk.
      destruct (decide (k = path_name x)) as [->|Hne].
      * rewrite lookup_insert_eq in Hk. injection Hk as <-.
        split; [done|]. apply elem_of_app. right. by apply list_elem_of_singleton.
      * rewrite lookup_insert_ne in Hk by done.
        destruct (IH1 _ _ Hk) as [? ?]. split; [done|].
        apply elem_of_app. by left.
    + intros f Hf.
      destruct (decide (path_name f = path_name x)) as [->|Hne].
      * rewrite lookup_insert_eq. by eexists.
      * rewrite lookup_insert_ne by done.
        apply elem_of_app in Hf as [Hf|Hf]; [by apply IH2|].
        apply list_elem_of_singleton in Hf. by subst.
    + intros f Hf Hios.
      destruct (decide (path_name f = path_name x)) as [Heq|Hne].
      * rewrite Heq, lookup_insert_eq. exists x. split; [done|].
        apply orb_true_iff in Hcond as [?|Hfree]; [done|].
        apply negb_true_iff, bool_decide_eq_false in Hfree.
        apply elem_of_app in Hf as [Hf|Hf].
        -- exfalso. apply Hfree. rewrite <- Heq. by apply IH2.
        -- apply list_elem_of_singleton in Hf. by subst.
      * rewrite lookup_insert_ne by done.
        apply elem_of_app in Hf as [Hf|Hf]; [by apply IH3|].
        apply list_elem_of_singleton in Hf. by subst.
  - apply orb_false_iff in Hcond as [Hnot Hfull].
    apply negb_false_iff, bool_decide_eq_true in Hfull.
    split; [|split].
    + intros k f Hk. destruct (IH1 _ _ Hk) as [? ?]. split; [done|].
      apply elem_of_app. by left.
    + intros f Hf. apply elem_of_app in Hf as [Hf|Hf]; [by apply IH2|].
      apply list_elem_of_singleton in Hf. by subst.
    + intros f Hf Hios. apply elem_of_app in Hf as [Hf|Hf]; [by apply IH3|].
      apply list_elem_of_singleton in Hf. subst. congruence.
Qed.

Lemma elem_of_select (files : list path) f :
  f ∈ select_source_files files
  ↔ ∃ k, foldl keep_file ∅
           (filter (λ f, str_in "Mac" (path_str f) = false) files) !! k
         = Some f.
Proof.
  unfold select_source_files. rewrite merge_sort_Permutation.
  rewrite list_elem_of_fmap. split.
  - intros [[k f'] [-> Hin]]. exists k. by apply elem_of_map_to_list.
  - intros [k Hk]. exists (k, f). split; [done|]. by apply elem_of_map_to_list.
Qed.

(** X13.  The files chosen are among the candidates and have no [Mac] in
    their path, and every candidate without [Mac] in its path is
    represented by a chosen file of the same name. *)
Theorem chosen_files_cover_the_candidates (files : list path) :
  (∀ f, f ∈ select_source_files files →
     f ∈ files ∧ str_in "Mac" (path_str f) = false)
  ∧ (∀ f, f ∈ files → str_in "Mac" (path_str f) = false →
       ∃ f', f' ∈ select_source_files files ∧ path_name f' = path_name f).
Proof.
  destruct (keep_file_rounds
              (filter (λ f, str_in "Mac" (path_str f) = false) files))
    as (H1 & H2 & _).
  split.
  - intros f Hf. apply elem_of_select in Hf as [k Hk].
    destruct (H1 _ _ Hk) as [_ Hin].
    apply list_elem_of_filter in Hin as [? ?]. by split.
  - intros f Hf Hmac.
    destruct (H2 f) as [f' Hf']; [by apply list_elem_of_filter|].
    exists f'. split.
    + apply elem_of_select. by eexists.
    + by destruct (H1 _ _ Hf').
Qed.

Lemma chosen_files_cover_the_candidates_witness :
  ∃ f', f' ∈ select_source_files
               [["src"; "GPUImageView.h"]; ["src"; "Mac"; "GPUImageView.h"];
                ["src"; "iOS"; "GPUImageView.h"]]
        ∧ path_name f' = path_name ["src"; "GPUImageView.h"].
Proof.
  apply (chosen_files_cover_the_candidates
           [["src"; "GPUImageView.h"]; ["src"; "Mac"; "GPUImageView.h"];
            ["src"; "iOS"; "GPUImageView.h"]]).
  - vm_compute. apply list_elem_of_here.
  - vm_compute. reflexivity.
Defined.

(** X14.  No two chosen files have the same name, and the chosen files come
    in the order of their paths: each one is below all that follow it. *)
Theorem chosen_files_distinct_and_sorted (files : list path) :
  NoDup (path_name <$> select_source_files files)
  ∧ StronglySorted path_le (select_source_files files).
Proof.
  split.
  - destruct (keep_file_rounds
                (filter (λ f, str_in "Mac" (path_str f) = false) files))
      as (H1 & _ & _).
    unfold select_source_files. rewrite merge_sort_Permutation.
    rewrite <- list_fmap_compose.
    rewrite (list_fmap_ext (path_name ∘ snd) fst).
    + apply NoDup_fst_map_to_list.
    + intros i [k f] Hin. apply list_elem_of_lookup_2, elem_of_map_to_list in Hin.
      simpl. by destruct (H1 _ _ Hin).
  - apply (StronglySorted_merge_sort path_le).
Qed.

(** X15.  Where a candidate under an [iOS] path has no [Mac] in its path,
    the chosen file of its name is under an [iOS] path too, whatever
    other candidates share the name and wherever they stand. *)
Theorem ios_file_takes_the_name (files : list path) f f' :
  f ∈ files →
  str_in "Mac" (path_str f) = false →
  str_in "iOS" (path_str f) = true →
  f' ∈ select_source_files files →
  path_name f' = path_name f →
  str_in "iOS" (path_str f') = true.
Proof.
  intros Hf Hmac Hios Hf' Hname.
  destruct (keep_file_rounds
              (filter (λ f, str_in "Mac" (path_str f) = false) files))
    as (H1 & _ & H3).
  apply elem_of_select in Hf' as [k Hk].
  destruct (H1 _ _ Hk) as [Hk' _].
  destruct (H3 f) as (f'' & Hf'' & Hios''); [by apply list_elem_of_filter|done|].
  rewrite <- Hname, Hk', Hk in Hf''. by injection Hf'' as <-.
Qed.

Lemma ios_file_takes_the_name_witness :
  str_in "iOS" (path_str ["src"; "iOS"; "GPUImageView.h"]) = true.
Proof.
  apply (ios_file_takes_the_name
           [["src"; "iOS"; "GPUImageView.h"]; ["src"; "GPUImageView.h"]]
           ["src"; "iOS"; "GPUImageView.h"]
           ["src"; "iOS"; "GPUImageView.h"]).
  - apply list_elem_of_here.
  - vm_compute. reflexivity.
  - vm_compute. reflexivity.
  - vm_compute. apply list_elem_of_here.
  - reflexivity.
Defined.

End source_files.
